(** * gotracer: the EPsolar Tracer status query, embedded in Rocq

    A shallow embedding of [gotracer.go]: the command table
    [queryStateCommand], the exchange loop and the field decoding of
    [Status], the bounded read [readWithTimeout], the big-endian
    decoder [unpack] and the formatting of [TracerStatus.String].

    Conventions.
    - A Go [byte] is a [Byte.byte]; [uint32] is a [Z] reduced modulo
      [2^32] after every operation that can leave the range.
    - A Go [float32] is a [spec_float] used at precision 24 and
      [emax = 128] (IEEE 754 binary32), with the operations of the
      standard library's [SpecFloat]: round to nearest, ties to even.
    - A run-time panic (index or slice bound out of range) is [None] in
      the [option] that wraps every function which indexes or slices.
    - The serial port and the clock are an explicit state, [Port]; the
      two goroutines of [readWithTimeout] are resolved by comparing the
      instant at which the read returns with the duration of the timer. *)

From Stdlib Require Import ZArith List Bool Lia QArith Qabs Qpower.
From Stdlib Require Import Floats.SpecFloat.
From Stdlib Require Init.Byte Strings.String DecimalString.
Import String.StringSyntax.
#[local] Delimit Scope string_scope with string.
Import ListNotations.

#[local] Open Scope Z_scope.

(** ** Bytes and unsigned 32-bit words *)

Module Word.

Definition byte := Byte.byte.

(** [uint32(b)], [int(b)], [int32(b)] for a byte [b]: its value in [0, 255]. *)
Definition byte_val (b : byte) : Z := Z.of_N (Byte.to_N b).

Definition wrap32 (z : Z) : Z := z mod 2 ^ 32.

(** [x + y] on [uint32]. *)
Definition add32 (x y : Z) : Z := wrap32 (x + y).

(** [x << s] on [uint32], for an unsigned shift count [s]: bits shifted past
    bit 31 are lost, so a count of 32 or more gives 0. *)
Definition shl32 (x s : Z) : Z := wrap32 (Z.shiftl x s).

(** [uint(n)] for an [int] on a 64-bit platform. *)
Definition to_uint (n : Z) : Z := n mod 2 ^ 64.

End Word.

(** ** float32 *)

Module F32.

Definition float32 := spec_float.

Definition prec : Z := 24.
Definition emax : Z := 128.

(** Conversion of an integer (an integer constant, or a [uint32] value) to
    [float32]: the nearest representable value, ties to even. *)
Definition of_Z (z : Z) : float32 := binary_normalize prec emax z 0 false.

Definition div (x y : float32) : float32 := SFdiv prec emax x y.
Definition sub (x y : float32) : float32 := SFsub prec emax x y.

(** [x > y]: false when either side is a NaN. *)
Definition gtb (x y : float32) : bool := SFltb y x.

(** The zero value of a [float32] variable. *)
Definition zero : float32 := S754_zero false.

(** The rational number a finite float stands for; [None] for infinities
    and NaN. *)
Definition to_Q (f : float32) : option Q :=
  match f with
  | S754_zero _ => Some 0%Q
  | S754_finite s m e =>
      let mag := (inject_Z (Z.pos m) * Qpower 2 e)%Q in
      Some (if s then Qopp mag else mag)
  | _ => None
  end.

(** [f] is a normal binary32 number within half a unit in the last place
    of the rational [q]: [f] is what the decimal constant [q] denotes as a
    [float32]. *)
Definition nearest (q : Q) (f : float32) : Prop :=
  match f with
  | S754_finite s m e =>
      Z.pos (digits2_pos m) = prec /\ valid_binary prec emax f = true /\
      match to_Q f with
      | Some v => (Qabs (v - q) * 2 <= Qpower 2 e)%Q
      | None => False
      end
  | _ => False
  end.

End F32.

Import Word F32.

(** ** [unpack] *)

(** The loop of [unpack], started at index [i] with accumulator [v] over the
    remaining elements [rest]; [len] is [len(slice)]. *)
Fixpoint unpack_loop (len : Z) (i : Z) (rest : list byte) (v : Z) : Z :=
  match rest with
  | [] => v
  | b :: rest' =>
      let shift := to_uint ((len - 1 - i) * 8) in
      unpack_loop len (i + 1) rest' (add32 v (shl32 (byte_val b) shift))
  end.

(** The [uint32] that [unpack] accumulates before the conversion. *)
Definition unpack_bits (slice : list byte) : Z :=
  unpack_loop (Z.of_nat (length slice)) 0 slice 0.

Definition unpack (slice : list byte) : float32 :=
  of_Z (unpack_bits slice).

(** The big-endian value in the words of the specification: the sum over the
    indices [i] of [byte[i] << (8 * (L - 1 - i))], with [L] the length. *)
Fixpoint be_sum (L : Z) (i : Z) (bs : list byte) : Z :=
  match bs with
  | [] => 0
  | b :: bs' => Z.shiftl (byte_val b) (8 * (L - 1 - i)) + be_sum L (i + 1) bs'
  end.

Definition big_endian (bs : list byte) : Z :=
  be_sum (Z.of_nat (length bs)) 0 bs.

(** ** The command table *)

Record command := mkCommand {
  data : list byte;
  respLen : Z;
  offset : Z
}.

Definition queryStateCommand : list command :=
  [ mkCommand [Byte.x01; Byte.x04; Byte.x32; Byte.x00; Byte.x00; Byte.x03; Byte.xbe; Byte.xb3] 11 0;
    mkCommand [Byte.x01; Byte.x02; Byte.x20; Byte.x00; Byte.x00; Byte.x01; Byte.xb2; Byte.x0a] 6 11;
    mkCommand [Byte.x01; Byte.x43; Byte.x31; Byte.x00; Byte.x00; Byte.x1b; Byte.x0a; Byte.xf2] 51 17;
    mkCommand [Byte.x01; Byte.x04; Byte.x33; Byte.x1a; Byte.x00; Byte.x03; Byte.x9e; Byte.x88] 11 68;
    mkCommand [Byte.x01; Byte.x04; Byte.x33; Byte.x02; Byte.x00; Byte.x12; Byte.xde; Byte.x83] 41 79 ].

(** ** Slices *)

Module Slice.

Definition len (l : list byte) : Z := Z.of_nat (length l).

(** [make([]byte, n)] *)
Definition make (n : Z) : list byte := repeat Byte.x00 (Z.to_nat n).

(** [l[i]]; [None] is the index-out-of-range panic. *)
Definition index (l : list byte) (i : Z) : option byte :=
  if (0 <=? i) && (i <? len l) then nth_error l (Z.to_nat i) else None.

(** The elements of [l] from position [lo] up to, not including, [hi]. *)
Definition window (l : list byte) (lo hi : Z) : list byte :=
  firstn (Z.to_nat (hi - lo)) (skipn (Z.to_nat lo) l).

(** [l[lo:hi]] for a slice whose capacity is its length; [None] is the
    slice-bounds panic. *)
Definition slice (l : list byte) (lo hi : Z) : option (list byte) :=
  if (0 <=? lo) && (lo <=? hi) && (hi <=? len l)
  then Some (window l lo hi)
  else None.

(** [l] with the elements of [xs] stored from position [off] on, for [xs]
    that fits: [off + len(xs) <= len(l)]. *)
Definition store (l : list byte) (off : Z) (xs : list byte) : list byte :=
  firstn (Z.to_nat off) l ++ xs ++ skipn (Z.to_nat (off + len xs)) l.

(** [copy(dst[off:], src)] seen from [dst]: the first
    [min(len(dst) - off, len(src))] elements of [src] are stored from
    position [off] on and nothing else changes; [None] is the panic of
    [dst[off:]]. *)
Definition copy_from (dst : list byte) (off : Z) (src : list byte) : option (list byte) :=
  if (0 <=? off) && (off <=? len dst)
  then Some (store dst off (firstn (Z.to_nat (Z.min (len dst - off) (len src))) src))
  else None.

End Slice.

(** ** Errors, the serial port and the clock *)

Inductive error :=
| EOF                                (* io.EOF *)
| ErrUnexpectedEOF                   (* io.ErrUnexpectedEOF *)
| ErrShortBuffer                     (* io.ErrShortBuffer *)
| ErrorsNew (msg : String.string)    (* errors.New(msg) *)
| SerialError (code : nat).          (* any other error of the serial package *)

(** What one call of [Read] on the port does: it blocks for [delay]
    nanoseconds, then hands over [bytes] and returns [rerr]. *)
Record read_event := mkRead {
  delay : Z;
  bytes : list byte;
  rerr : option error
}.

Record Port := mkPort {
  open_err : option error;            (* what serial.Open returns for the port name *)
  incoming : list read_event;         (* the future calls of Read; none left: Read blocks for ever *)
  write_errs : list (option error);   (* the results of the future calls of Write; none left: success *)
  written : list (list byte);         (* the arguments of the calls of Write so far, oldest first *)
  closed : bool;
  tie_read_first : bool;              (* the choice of select when both channels are ready *)
  clock : Z                           (* nanoseconds *)
}.

Definition set_incoming (p : Port) (evs : list read_event) : Port :=
  mkPort (open_err p) evs (write_errs p) (written p) (closed p) (tie_read_first p) (clock p).

Definition advance (p : Port) (d : Z) : Port :=
  mkPort (open_err p) (incoming p) (write_errs p) (written p) (closed p) (tie_read_first p)
         (clock p + d).

(** [port.Write(frame)]: the call is recorded, and fails when the port says
    so. *)
Definition port_write (p : Port) (frame : list byte) : Port * option error :=
  match write_errs p with
  | [] =>
      (mkPort (open_err p) (incoming p) [] (written p ++ [frame]) (closed p)
              (tie_read_first p) (clock p), None)
  | e :: rest =>
      (mkPort (open_err p) (incoming p) rest (written p ++ [frame]) (closed p)
              (tie_read_first p) (clock p), e)
  end.

(** [port.Close()] *)
Definition port_close (p : Port) : Port :=
  mkPort (open_err p) (incoming p) (write_errs p) (written p) true (tie_read_first p) (clock p).

(** ** [io.ReadAtLeast] *)

Inductive read_result :=
| Blocked                       (* the call never returns *)
| Returned (rest : list read_event) (buf : list byte) (n : Z) (err : option error)
           (elapsed : Z).

(** The loop [for n < min && err == nil { nn, err = r.Read(buf[n:]); n += nn }].
    A call of [Read] stores at most [len(buf) - n] bytes; what does not fit
    stays in the port for the next call, and the call then returns no error.
    In that case [buf] is full, and as [ReadAtLeast] enters the loop only
    with [len(buf) >= min] the loop is over. *)
Fixpoint read_loop (evs : list read_event) (buf : list byte) (min n : Z)
    (err : option error) (elapsed : Z) : read_result :=
  if (n <? min) && (match err with None => true | Some _ => false end) then
    match evs with
    | [] => Blocked
    | ev :: rest =>
        let room := Z.to_nat (Slice.len buf - n) in
        let got := firstn room (bytes ev) in
        let left := skipn room (bytes ev) in
        let buf' := Slice.store buf n got in
        let n' := n + Slice.len got in
        match left with
        | [] => read_loop rest buf' min n' (rerr ev) (elapsed + delay ev)
        | _ :: _ => Returned (mkRead 0 left (rerr ev) :: rest) buf' n' None (elapsed + delay ev)
        end
    end
  else Returned evs buf n err elapsed.

Definition ReadAtLeast (evs : list read_event) (buf : list byte) (min : Z) : read_result :=
  if Slice.len buf <? min then Returned evs buf 0 (Some ErrShortBuffer) 0
  else
    match read_loop evs buf min 0 None 0 with
    | Blocked => Blocked
    | Returned rest buf' n err elapsed =>
        let err' :=
          if min <=? n then None
          else match err with
               | Some EOF => if 0 <? n then Some ErrUnexpectedEOF else Some EOF
               | _ => err
               end in
        Returned rest buf' n err' elapsed
    end.

(** ** [readWithTimeout] *)

(** [time.Sleep(2e9)]: the duration of the timer, in nanoseconds. *)
Definition timeout_ns : Z := 2000000000.

Definition timed_out : error := ErrorsNew "Timed out."%string.

(** The read goroutine and the timer goroutine race; [select] takes the one
    that is ready first, and either when both are.  After a timeout the
    abandoned read still consumes what the port delivers. *)
Definition readWithTimeout (p : Port) (n : Z) : Port * list byte * option error :=
  match ReadAtLeast (incoming p) (Slice.make 120) n with
  | Blocked => (advance (set_incoming p []) timeout_ns, [], Some timed_out)
  | Returned rest buf _ err elapsed =>
      if (elapsed <? timeout_ns) || ((elapsed =? timeout_ns) && tie_read_first p)
      then (advance (set_incoming p rest) elapsed, buf, err)
      else (advance (set_incoming p rest) timeout_ns, [], Some timed_out)
  end.

(** ** [Status] *)

Record TracerStatus := mkStatus {
  ArrayVoltage : float32;
  ArrayCurrent : float32;
  ArrayPower : float32;
  BatteryVoltage : float32;
  BatteryCurrent : float32;
  BatterySOC : Z;
  BatteryTemp : float32;
  BatteryMaxVoltage : float32;
  BatteryMinVoltage : float32;
  DeviceTemp : float32;
  LoadVoltage : float32;
  LoadCurrent : float32;
  LoadPower : float32;
  Load : bool;
  EnergyConsumedDaily : float32;
  EnergyConsumedMonthly : float32;
  EnergyConsumedAnnual : float32;
  EnergyConsumedTotal : float32;
  EnergyGeneratedDaily : float32;
  EnergyGeneratedMonthly : float32;
  EnergyGeneratedAnnual : float32;
  EnergyGeneratedTotal : float32;
  Timestamp : option Z      (* [None] is the zero [time.Time] *)
}.

(** The zero value of [TracerStatus]: what the named result [t] holds until
    it is assigned. *)
Definition zeroStatus : TracerStatus :=
  mkStatus zero zero zero zero zero 0 zero zero zero zero zero zero zero false
           zero zero zero zero zero zero zero zero None.

Notation "x <- c1 ;; c2" :=
  (match c1 with Some x => c2 | None => None end)
  (at level 61, c1 at next level, right associativity).

(** The body of the loop [for _, r := range queryStateCommand], over the
    commands still to run.  The result is the port, the buffer and [err] at
    the point where the loop is left. *)
Fixpoint exchanges (cmds : list command) (p : Port) (buffer : list byte)
    : option (Port * list byte * option error) :=
  match cmds with
  | [] => Some (p, buffer, None)
  | r :: cmds' =>
      let '(p1, werr) := port_write p (data r) in
      match werr with
      | Some e => Some (p1, buffer, Some e)
      | None =>
          let '(p2, b, rerr) := readWithTimeout p1 (respLen r) in
          match rerr with
          | Some e => Some (p2, buffer, Some e)
          | None =>
              buffer' <- Slice.copy_from buffer (offset r) b ;;
              exchanges cmds' p2 buffer'
          end
      end
  end.

(** [unpack(buffer[lo:hi]) / 100] *)
Definition field (buffer : list byte) (lo hi : Z) : option float32 :=
  s <- Slice.slice buffer lo hi ;;
  Some (div (unpack s) (of_Z 100)).

(** Lines 125 to 154 of [Status]: the fields of [t] from the assembled
    buffer, with [now] the reading of [time.Now().UTC()]. *)
Definition decode (now : Z) (buffer : list byte) : option TracerStatus :=
  b8 <- Slice.index buffer 8 ;;
  let load := byte_val b8 =? 1 in
  arrayVoltage <- field buffer 24 26 ;;
  arrayCurrent <- field buffer 26 28 ;;
  arrayPower <- field buffer 28 30 ;;
  batteryVoltage <- field buffer 32 34 ;;
  loadVoltage <- field buffer 40 42 ;;
  loadCurrent <- field buffer 42 44 ;;
  loadPower <- field buffer 44 46 ;;
  batteryTemp <- field buffer 56 58 ;;
  deviceTemp <- field buffer 58 60 ;;
  b65 <- Slice.index buffer 65 ;;
  let batterySOC := byte_val b65 in
  s <- Slice.slice buffer 73 75 ;;
  let bc := unpack s in
  let bc := if gtb bc (of_Z 32768) then sub bc (of_Z 65536) else bc in
  let batteryCurrent := div bc (of_Z 100) in
  batteryMaxVoltage <- field buffer 82 84 ;;
  batteryMinVoltage <- field buffer 84 86 ;;
  energyConsumedDaily <- field buffer 86 88 ;;
  energyConsumedMonthly <- field buffer 88 92 ;;
  energyConsumedAnnual <- field buffer 92 96 ;;
  energyConsumedTotal <- field buffer 96 100 ;;
  energyGeneratedDaily <- field buffer 100 104 ;;
  energyGeneratedMonthly <- field buffer 104 108 ;;
  energyGeneratedAnnual <- field buffer 108 112 ;;
  energyGeneratedTotal <- field buffer 112 116 ;;
  Some {| Timestamp := Some now;
          Load := load;
          ArrayVoltage := arrayVoltage;
          ArrayCurrent := arrayCurrent;
          ArrayPower := arrayPower;
          BatteryVoltage := batteryVoltage;
          LoadVoltage := loadVoltage;
          LoadCurrent := loadCurrent;
          LoadPower := loadPower;
          BatteryTemp := batteryTemp;
          DeviceTemp := deviceTemp;
          BatterySOC := batterySOC;
          BatteryCurrent := batteryCurrent;
          BatteryMaxVoltage := batteryMaxVoltage;
          BatteryMinVoltage := batteryMinVoltage;
          EnergyConsumedDaily := energyConsumedDaily;
          EnergyConsumedMonthly := energyConsumedMonthly;
          EnergyConsumedAnnual := energyConsumedAnnual;
          EnergyConsumedTotal := energyConsumedTotal;
          EnergyGeneratedDaily := energyGeneratedDaily;
          EnergyGeneratedMonthly := energyGeneratedMonthly;
          EnergyGeneratedAnnual := energyGeneratedAnnual;
          EnergyGeneratedTotal := energyGeneratedTotal |}.

(** [Status(portName)], with [p] the state of the device that [portName]
    names.  The result is [None] when the call panics, and otherwise the
    port as the call leaves it with the two results [(t, err)]. *)
Definition Status (p : Port) : option (Port * TracerStatus * option error) :=
  match open_err p with
  | Some e => Some (p, zeroStatus, Some e)
  | None =>
      match exchanges queryStateCommand p (Slice.make 120) with
      | None => None
      | Some (p', _, Some e) => Some (port_close p', zeroStatus, Some e)
      | Some (p', buffer, None) =>
          t <- decode (clock p') buffer ;;
          Some (port_close p', t, None)
      end
  end.

(** Two snapshots agree on every field except the capture timestamp. *)
Definition same_fields (t u : TracerStatus) : Prop :=
  mkStatus (ArrayVoltage t) (ArrayCurrent t) (ArrayPower t) (BatteryVoltage t)
           (BatteryCurrent t) (BatterySOC t) (BatteryTemp t) (BatteryMaxVoltage t)
           (BatteryMinVoltage t) (DeviceTemp t) (LoadVoltage t) (LoadCurrent t)
           (LoadPower t) (Load t) (EnergyConsumedDaily t) (EnergyConsumedMonthly t)
           (EnergyConsumedAnnual t) (EnergyConsumedTotal t) (EnergyGeneratedDaily t)
           (EnergyGeneratedMonthly t) (EnergyGeneratedAnnual t) (EnergyGeneratedTotal t)
           (Timestamp u) = u.

(** The float32 fields decoded without a sign, each with the byte range
    [lo, hi) of the buffer it is read from (lines 128 to 154 of [Status]). *)
Definition unsigned_fields : list ((TracerStatus -> float32) * (Z * Z)) :=
  [ (ArrayVoltage, (24, 26)); (ArrayCurrent, (26, 28)); (ArrayPower, (28, 30));
    (BatteryVoltage, (32, 34)); (LoadVoltage, (40, 42)); (LoadCurrent, (42, 44));
    (LoadPower, (44, 46)); (BatteryTemp, (56, 58)); (DeviceTemp, (58, 60));
    (BatteryMaxVoltage, (82, 84)); (BatteryMinVoltage, (84, 86));
    (EnergyConsumedDaily, (86, 88)); (EnergyConsumedMonthly, (88, 92));
    (EnergyConsumedAnnual, (92, 96)); (EnergyConsumedTotal, (96, 100));
    (EnergyGeneratedDaily, (100, 104)); (EnergyGeneratedMonthly, (104, 108));
    (EnergyGeneratedAnnual, (108, 112)); (EnergyGeneratedTotal, (112, 116)) ].

(** Every float32 field of the snapshot: battery current and the unsigned
    ones. *)
Definition float_fields : list ((TracerStatus -> float32) * (Z * Z)) :=
  (BatteryCurrent, (73, 75)) :: unsigned_fields.

(** The field holds the value [unpack] gives for its byte range, divided by
    100. *)
Definition scaled_raw (t : TracerStatus) (buffer : list byte)
    (f : (TracerStatus -> float32) * (Z * Z)) : Prop :=
  exists s, Slice.slice buffer (fst (snd f)) (snd (snd f)) = Some s /\
            fst f t = div (unpack s) (of_Z 100).

(** The correction of lines 141 to 143, on the raw value [bc]. *)
Definition sign_corrected (bc : float32) : float32 :=
  if gtb bc (of_Z 32768) then sub bc (of_Z 65536) else bc.

(** The regions of the commands [cmds] follow one another without gap or
    overlap from position [from] up to position [upto]. *)
Fixpoint tiles (from upto : Z) (cmds : list command) : Prop :=
  match cmds with
  | [] => from = upto
  | c :: cmds' =>
      offset c = from /\ 0 < respLen c /\ tiles (from + respLen c) upto cmds'
  end.

(** The number of bytes [io.ReadAtLeast] has read when it returns. *)
Definition read_count (p : Port) (n : Z) : Z :=
  match ReadAtLeast (incoming p) (Slice.make 120) n with
  | Blocked => 0
  | Returned _ _ cnt _ _ => cnt
  end.

(** The reply each exchange of the loop receives, for as long as the
    exchanges succeed: the bytes [io.ReadAtLeast] has read into its buffer. *)
Fixpoint received (cmds : list command) (p : Port) : list (list byte) :=
  match cmds with
  | [] => []
  | r :: cmds' =>
      let '(p1, werr) := port_write p (data r) in
      match werr with
      | Some _ => []
      | None =>
          let '(p2, b, rerr) := readWithTimeout p1 (respLen r) in
          match rerr with
          | Some _ => []
          | None =>
              firstn (Z.to_nat (read_count p1 (respLen r))) b :: received cmds' p2
          end
      end
  end.

(** The read of [n] bytes has not returned when the timer fires. *)
Definition read_late (p : Port) (n : Z) : Prop :=
  match ReadAtLeast (incoming p) (Slice.make 120) n with
  | Blocked => True
  | Returned _ _ _ _ elapsed =>
      timeout_ns < elapsed \/ (elapsed = timeout_ns /\ tie_read_first p = false)
  end.

(** The exchange of command [d] on port [p] fails with [e] and leaves the
    port as [pf]: the write fails, or the write succeeds and the bounded
    read returns an error (an error of the read, or the timeout). *)
Definition step_fails (p : Port) (d : command) (e : error) (pf : Port) : Prop :=
  port_write p (data d) = (pf, Some e) \/
  exists p1 b, port_write p (data d) = (p1, None) /\
               readWithTimeout p1 (respLen d) = (pf, b, Some e).

(** [unpack(buffer[lo:hi]) / 100] on a buffer that holds the range. *)
Definition scaled (buffer : list byte) (lo hi : Z) : float32 :=
  div (unpack (Slice.window buffer lo hi)) (of_Z 100).

(** A device that answers the five commands with replies of the declared
    lengths, the third one in two pieces: byte 8 of the first reply is 01,
    bytes 7 and 8 of the third are 04 D2 and its byte 48 is 50. *)
Definition sample_replies : list (list byte) :=
  [ repeat Byte.x00 8 ++ [Byte.x01] ++ repeat Byte.x00 2;
    repeat Byte.x22 6;
    repeat Byte.x00 7 ++ [Byte.x04; Byte.xd2] ++ repeat Byte.x33 39
      ++ [Byte.x50] ++ repeat Byte.x00 2;
    repeat Byte.x44 11;
    repeat Byte.x55 41 ].

Definition sample_port : Port :=
  mkPort None
         [ mkRead 3000000 (nth 0 sample_replies []) None;
           mkRead 2000000 (nth 1 sample_replies []) None;
           mkRead 4000000 (firstn 20 (nth 2 sample_replies [])) None;
           mkRead 1000000 (skipn 20 (nth 2 sample_replies [])) None;
           mkRead 3000000 (nth 3 sample_replies []) None;
           mkRead 5000000 (nth 4 sample_replies []) None ]
         [] [] false false 0.

(** A device that answers the first command and then falls silent. *)
Definition silent_port : Port :=
  mkPort None [ mkRead 3000000 (nth 0 sample_replies []) None ] [] [] false false 0.

(** A port on which the first write fails. *)
Definition broken_port : Port :=
  mkPort None (incoming sample_port) [Some (SerialError 5)] [] false false 0.

(** [f] is finite and stands for the integer [z], exactly. *)
Definition represents (f : float32) (z : Z) : Prop :=
  match to_Q f with
  | Some v => (v == inject_Z z)%Q
  | None => False
  end.

(** ** [TracerStatus.String] *)

(** A non-negative integer in decimal, as [%d] and [%v] print it. *)
Definition decimal (z : Z) : String.string :=
  DecimalString.NilZero.string_of_uint (N.to_uint (Z.to_N z)).

(** The two digits after the point. *)
Definition two_digits (z : Z) : String.string :=
  if z <? 10 then String.append "0" (decimal z) else decimal z.

(** The integer nearest to [100 * m * 2^e], ties to even: the digits that
    [%.2f] keeps of the exact value of a float. *)
Definition cents (m : positive) (e : Z) : Z :=
  if 0 <=? e then 100 * Z.pos m * 2 ^ e
  else
    let P := 2 ^ (- e) in
    let a := (100 * Z.pos m) / P in
    let b := (100 * Z.pos m) mod P in
    match 2 * b ?= P with
    | Lt => a
    | Gt => a + 1
    | Eq => if Z.even a then a else a + 1
    end.

(** [%.2f] on a [float32]: the exact value rounded to two decimals, ties to
    even, with a minus sign when the sign bit is set. *)
Definition fmt_2f (f : float32) : String.string :=
  match f with
  | S754_nan => "NaN"%string
  | S754_infinity s => if s then "-Inf"%string else "+Inf"%string
  | S754_zero s => String.append (if s then "-" else "") "0.00"
  | S754_finite s m e =>
      let n := cents m e in
      String.concat "" [ if s then "-"%string else ""%string;
                         decimal (n / 100); "."%string; two_digits (n mod 100) ]
  end.

(** [%v] on an [int32]. *)
Definition fmt_v (z : Z) : String.string :=
  if z <? 0 then String.append "-" (decimal (- z)) else decimal z.

(** [%t] *)
Definition fmt_t (b : bool) : String.string :=
  if b then "true"%string else "false"%string.

Definition newline : String.string :=
  String.String (Ascii.ascii_of_nat 10) String.EmptyString.

(** A format made of labels, each followed by one value and a line feed. *)
Definition lines (cells : list (String.string * String.string)) : String.string :=
  String.concat ""
    (map (fun c => String.concat "" [fst c; snd c; newline]) cells).

(** [func (t TracerStatus) String() string]: the format string of line 79,
    label by label; the percent sign after [BatterySOC] is the [%%] of the
    format. *)
Definition TracerStatus_String (t : TracerStatus) : String.string :=
  lines
    [ ("ArrayVoltage: ", fmt_2f (ArrayVoltage t));
      ("ArrayCurrent: ", fmt_2f (ArrayCurrent t));
      ("ArrayPower: ", fmt_2f (ArrayPower t));
      ("BatteryVoltage: ", fmt_2f (BatteryVoltage t));
      ("BatteryCurrent: ", fmt_2f (BatteryCurrent t));
      ("BatterySOC: ", String.append (fmt_v (BatterySOC t)) "%");
      ("BatteryTemp: ", fmt_2f (BatteryTemp t));
      ("BatteryMaxVoltage: ", fmt_2f (BatteryMaxVoltage t));
      ("BatteryMinVoltage: ", fmt_2f (BatteryMinVoltage t));
      ("DeviceTemp: ", fmt_2f (DeviceTemp t));
      ("LoadVoltage: ", fmt_2f (LoadVoltage t));
      ("LoadCurrent: ", fmt_2f (LoadCurrent t));
      ("LoadPower: ", fmt_2f (LoadPower t));
      ("Load: ", fmt_t (Load t));
      ("EnergyConsumedDaily: ", fmt_2f (EnergyConsumedDaily t));
      ("EnergyConsumedMonthly: ", fmt_2f (EnergyConsumedMonthly t));
      ("EnergyConsumedAnnual:", fmt_2f (EnergyConsumedAnnual t));
      ("EnergyConsumedTotal:", fmt_2f (EnergyConsumedTotal t));
      ("EnergyGeneratedDaily: ", fmt_2f (EnergyGeneratedDaily t));
      ("EnergyGeneratedMonthly: ", fmt_2f (EnergyGeneratedMonthly t));
      ("EnergyGeneratedAnnual: ", fmt_2f (EnergyGeneratedAnnual t));
      ("EnergyGeneratedTotal: ", fmt_2f (EnergyGeneratedTotal t)) ]%string.

(** The integer [z] of hundredths written with two decimals: [-1234] is
    [-12.34]. *)
Definition fixed2 (z : Z) : String.string :=
  String.concat "" [ if z <? 0 then "-"%string else ""%string;
                     decimal (Z.abs z / 100); "."%string;
                     two_digits (Z.abs z mod 100) ].

(** ** Definitions for the further properties *)

(** No call of [Read] takes a negative time. *)
Definition punctual (evs : list read_event) : Prop :=
  Forall (fun ev => 0 <= delay ev) evs.

(** One for a call that returns an error, zero for one that succeeds. *)
Definition failed (err : option error) : nat :=
  match err with Some _ => 1 | None => 0 end.

(** The positions of the buffer that lines 127 to 154 read. *)
Definition decoded_position (j : Z) : bool :=
  (j =? 8) || ((24 <=? j) && (j <? 30)) || ((32 <=? j) && (j <? 34))
  || ((40 <=? j) && (j <? 46)) || ((56 <=? j) && (j <? 60)) || (j =? 65)
  || ((73 <=? j) && (j <? 75)) || ((82 <=? j) && (j <? 116)).

(** The big-endian value of the bytes [lo] to [hi - 1] of the buffer. *)
Definition raw_at (buffer : list byte) (lo hi : Z) : Z :=
  big_endian (Slice.window buffer lo hi).

(** The value of bytes 73 and 74 read as a signed quantity, the way lines
    141 to 143 do. *)
Definition signed_at_73 (buffer : list byte) : Z :=
  if 32768 <? raw_at buffer 73 75 then raw_at buffer 73 75 - 65536
  else raw_at buffer 73 75.

(** The byte ranges of the four-byte energy counters. *)
Definition counters : list (Z * Z) :=
  [(88, 92); (92, 96); (96, 100); (100, 104); (104, 108); (108, 112); (112, 116)].

(** The text that shows the numbers of the buffer as the device holds them:
    every integer of hundredths with two decimals. *)
Definition report (buffer : list byte) : String.string :=
  lines
    [ ("ArrayVoltage: ", fixed2 (raw_at buffer 24 26));
      ("ArrayCurrent: ", fixed2 (raw_at buffer 26 28));
      ("ArrayPower: ", fixed2 (raw_at buffer 28 30));
      ("BatteryVoltage: ", fixed2 (raw_at buffer 32 34));
      ("BatteryCurrent: ", fixed2 (signed_at_73 buffer));
      ("BatterySOC: ", String.append (decimal (byte_val (nth 65 buffer Byte.x00))) "%");
      ("BatteryTemp: ", fixed2 (raw_at buffer 56 58));
      ("BatteryMaxVoltage: ", fixed2 (raw_at buffer 82 84));
      ("BatteryMinVoltage: ", fixed2 (raw_at buffer 84 86));
      ("DeviceTemp: ", fixed2 (raw_at buffer 58 60));
      ("LoadVoltage: ", fixed2 (raw_at buffer 40 42));
      ("LoadCurrent: ", fixed2 (raw_at buffer 42 44));
      ("LoadPower: ", fixed2 (raw_at buffer 44 46));
      ("Load: ", fmt_t (byte_val (nth 8 buffer Byte.x00) =? 1));
      ("EnergyConsumedDaily: ", fixed2 (raw_at buffer 86 88));
      ("EnergyConsumedMonthly: ", fixed2 (raw_at buffer 88 92));
      ("EnergyConsumedAnnual:", fixed2 (raw_at buffer 92 96));
      ("EnergyConsumedTotal:", fixed2 (raw_at buffer 96 100));
      ("EnergyGeneratedDaily: ", fixed2 (raw_at buffer 100 104));
      ("EnergyGeneratedMonthly: ", fixed2 (raw_at buffer 104 108));
      ("EnergyGeneratedAnnual: ", fixed2 (raw_at buffer 108 112));
      ("EnergyGeneratedTotal: ", fixed2 (raw_at buffer 112 116)) ]%string.

(** The bytes the port has still to deliver, in order. *)
Definition pending (evs : list read_event) : list byte :=
  concat (map bytes evs).

(** A device whose first reply comes with two bytes more than declared. *)
Definition chatty_port : Port :=
  mkPort None
         [ mkRead 3000000 (nth 0 sample_replies [] ++ [Byte.xaa; Byte.xbb]) None;
           mkRead 2000000 (nth 1 sample_replies []) None;
           mkRead 4000000 (nth 2 sample_replies []) None;
           mkRead 3000000 (nth 3 sample_replies []) None;
           mkRead 5000000 (nth 4 sample_replies []) None ]
         [] [] false false 0.

(** The second half of [binary_round_aux]: the rounded mantissa [M] is
    brought back to 24 bits and packed. *)
Definition finish (s : bool) (M : Z) (e : Z) : float32 :=
  let '(mrs, e') := shr_fexp prec emax M e loc_Exact in
  match shr_m mrs with
  | Z0 => S754_zero s
  | Zpos m => if Z.leb e' (emax - prec) then S754_finite s m e' else S754_infinity s
  | Zneg _ => S754_nan
  end.

(** The location [l] tells where the remainder [rem] of a division by [den]
    lies: nowhere, below the half, on it or above it. *)
Definition loc_ok (l : location) (rem den : Z) : Prop :=
  match l with
  | loc_Exact => rem = 0
  | loc_Inexact c => 0 < rem /\ c = (2 * rem ?= den)
  end.

(** [f], decoded from the integer [raw], is the float32 of [raw/100]:
    [+0] for 0 and otherwise the float32 nearest to the hundredth. *)
Definition hundredth (raw : Z) (f : float32) : Prop :=
  (raw = 0 -> f = S754_zero false) /\ (raw <> 0 -> nearest (raw # 100) f).

(** The unsigned field [f] of [t] is the float32 of the hundredth of the
    big-endian value of its bytes, when that value is below [2^24]; a field
    of two bytes always is. *)
Definition field_nearest (t : TracerStatus) (buffer : list byte)
    (f : (TracerStatus -> float32) * (Z * Z)) : Prop :=
  let raw := big_endian (Slice.window buffer (fst (snd f)) (snd (snd f))) in
  (snd (snd f) - fst (snd f) = 2 -> raw < 65536) /\
  (raw < 2 ^ 24 -> hundredth raw (fst f t)).

(** * Tactics *)

(** Evaluate the closed shift counts and exponents of a goal. *)
Ltac close_exponents :=
  repeat match goal with
         | |- context [to_uint ?x] =>
             let v := eval vm_compute in (to_uint x) in change (to_uint x) with v
         | |- context [8 * ?x] =>
             let v := eval vm_compute in (8 * x) in change (8 * x) with v
         end.

(** Remove the reductions modulo [m] whose argument is in range, innermost
    first. *)
Ltac drop_inner_mod :=
  repeat match goal with
         | |- context [?x mod ?m] =>
             lazymatch x with
             | context [_ mod _] => fail
             | _ => rewrite (Z.mod_small x m) by lia
             end
         end.

(** Decide a closed goal by evaluation. *)
Ltac by_evaluation := vm_compute; repeat split; try reflexivity; discriminate.

(** * Properties *)

(** ** Lists *)

Section ListFacts.

Context {A B : Type}.

Lemma firstn_snoc (l : list A) :
  forall i d, nth_error l i = Some d -> firstn (S i) l = firstn i l ++ [d].
Proof.
  induction l as [|x l IH]; intros [|i] d H; cbn in H; try discriminate.
  - injection H as <-. reflexivity.
  - cbn [firstn app]. f_equal. apply IH. exact H.
Qed.

Lemma split_at (l : list A) :
  forall i d, nth_error l i = Some d -> l = firstn i l ++ d :: skipn (S i) l.
Proof.
  induction l as [|x l IH]; intros [|i] d H; cbn in H; try discriminate.
  - injection H as <-. reflexivity.
  - cbn [firstn skipn app]. f_equal. apply IH. exact H.
Qed.

Lemma Forall2_nth_error (P : A -> B -> Prop) (l1 : list A) (l2 : list B) :
  Forall2 P l1 l2 ->
  forall i a b, nth_error l1 i = Some a -> nth_error l2 i = Some b -> P a b.
Proof.
  induction 1 as [|x y l1 l2 Hxy _ IH]; intros [|i] a b Ha Hb; cbn in Ha, Hb;
    try discriminate.
  - congruence.
  - eapply IH; eassumption.
Qed.

End ListFacts.

(** ** Bytes and words *)

Lemma byte_val_range (b : byte) : 0 <= byte_val b < 256.
Proof.
  unfold byte_val. pose proof (Byte.to_N_bounded b) as H. lia.
Qed.

Lemma shl32_byte (b : byte) (s : Z) :
  0 <= s <= 24 -> shl32 (byte_val b) s = byte_val b * 2 ^ s.
Proof.
  intros Hs. unfold shl32, wrap32. rewrite Z.shiftl_mul_pow2 by lia.
  pose proof (byte_val_range b) as Hb.
  apply Z.mod_small. split; [apply Z.mul_nonneg_nonneg; lia|].
  assert (2 ^ s <= 2 ^ 24) by (apply Z.pow_le_mono_r; lia).
  change (2 ^ 32) with (256 * 2 ^ 24). nia.
Qed.

(** ** Exact conversions to float32 *)

Lemma digits2_iter_xO (k p : positive) :
  Z.pos (digits2_pos (Pos.iter xO p k)) = Z.pos (digits2_pos p) + Z.pos k.
Proof.
  induction k as [|k IH] using Pos.peano_ind.
  - simpl. lia.
  - rewrite Pos.iter_succ. simpl. lia.
Qed.

Lemma iter_xO_value (k p : positive) :
  Z.pos (Pos.iter xO p k) = Z.pos p * 2 ^ Z.pos k.
Proof.
  induction k as [|k IH] using Pos.peano_ind.
  - simpl. lia.
  - rewrite Pos.iter_succ, Pos2Z.inj_succ, Z.pow_succ_r by lia.
    rewrite Pos2Z.inj_xO, IH. ring.
Qed.

(** A mantissa of exactly 24 bits with an exponent in range is already
    rounded. *)
Lemma round_aux_exact (s : bool) (m : positive) (e : Z) :
  Z.pos (digits2_pos m) = 24 -> -149 <= e <= 104 ->
  binary_round_aux prec emax s (Z.pos m) e loc_Exact = S754_finite s m e.
Proof.
  intros Hd He.
  assert (Hf : fexp prec emax (Zdigits2 (Z.pos m) + e) - e = 0).
  { unfold fexp, emin, prec, emax, Zdigits2. rewrite Hd. lia. }
  unfold binary_round_aux, shr_fexp. rewrite Hf.
  cbn [shr shr_record_of_loc shr_m loc_of_shr_record round_nearest_even].
  rewrite Hf. cbn [shr shr_record_of_loc shr_m].
  destruct (Z.leb_spec e (emax - prec)) as [_|H]; [reflexivity|].
  unfold emax, prec in H. lia.
Qed.

Lemma of_Z_pos (p : positive) :
  Z.pos (digits2_pos p) <= 24 ->
  exists m e, of_Z (Z.pos p) = S754_finite false m e /\ e <= 0 /\
              Z.pos m = Z.pos p * 2 ^ (- e).
Proof.
  intros Hd. unfold of_Z, binary_normalize, binary_round, shl_align.
  assert (Hf : fexp prec emax (Z.pos (digits2_pos p) + 0)
               = Z.pos (digits2_pos p) - 24).
  { unfold fexp, emin, prec, emax. lia. }
  rewrite Hf. clear Hf.
  destruct (Z.pos (digits2_pos p) - 24 - 0) as [|k|k] eqn:Hk; try lia.
  - exists p, 0. split; [|split; [lia|simpl; lia]].
    apply round_aux_exact; lia.
  - exists (Pos.iter xO p k), (Z.pos (digits2_pos p) - 24).
    split; [|split; [lia|]].
    + apply round_aux_exact; [rewrite digits2_iter_xO|]; lia.
    + rewrite iter_xO_value. f_equal. f_equal. lia.
Qed.

Lemma digits2_bound (p : positive) (n : Z) :
  0 <= n -> Z.pos p < 2 ^ n -> Z.pos (digits2_pos p) <= n.
Proof.
  revert n. induction p as [p IH|p IH|]; intros n Hn Hp; simpl.
  - assert (n <> 0) by (intros ->; simpl in Hp; lia).
    rewrite Pos2Z.inj_succ. specialize (IH (n - 1)).
    replace n with (Z.succ (n - 1)) in Hp by lia.
    rewrite Z.pow_succ_r in Hp by lia. lia.
  - assert (n <> 0) by (intros ->; simpl in Hp; lia).
    rewrite Pos2Z.inj_succ. specialize (IH (n - 1)).
    replace n with (Z.succ (n - 1)) in Hp by lia.
    rewrite Z.pow_succ_r in Hp by lia. lia.
  - assert (n <> 0) by (intros ->; simpl in Hp; lia). lia.
Qed.

(** Every integer in [[0, 2^24)] is a float32, and the conversion finds it. *)
Lemma of_Z_exact (z : Z) : 0 <= z < 2 ^ 24 -> represents (of_Z z) z.
Proof.
  intros Hz. destruct z as [|p|p]; try lia.
  - compute. reflexivity.
  - destruct (of_Z_pos p) as (m & e & -> & He & Hm).
    { apply digits2_bound; lia. }
    unfold represents, to_Q. rewrite Hm.
    destruct e as [|k|k]; try lia.
    + simpl. unfold Qeq. simpl. lia.
    + rewrite inject_Z_mult.
      change (- Z.neg k) with (Z.pos k).
      rewrite <- Qmult_assoc.
      assert (Hq : (inject_Z (2 ^ Z.pos k) * Qpower 2 (Z.neg k) == 1)%Q).
      { change (Z.neg k) with (- Z.pos k).
        rewrite Qpower_opp. rewrite <- (Zpower_Qpower 2 (Z.pos k)) by lia.
        apply Qmult_inv_r. intros H. unfold Qeq in H. simpl in H.
        assert (0 < 2 ^ Z.pos k) by (apply Z.pow_pos_nonneg; lia). lia. }
      rewrite Hq. ring.
Qed.

(** ** [unpack] *)

Lemma unpack_bits_big_endian (bs : list byte) :
  1 <= Slice.len bs <= 4 -> unpack_bits bs = big_endian bs.
Proof.
  intros Hl. unfold Slice.len in Hl.
  destruct bs as [|b0 [|b1 [|b2 [|b3 [|b4 bs]]]]]; simpl length in Hl; try lia;
    clear Hl; unfold unpack_bits, big_endian; cbn [length unpack_loop be_sum];
    close_exponents;
    rewrite ?shl32_byte by lia; rewrite ?Z.shiftl_mul_pow2 by lia;
    unfold add32, wrap32;
    repeat match goal with
           | |- context [byte_val ?b] =>
               pose proof (byte_val_range b); generalize dependent (byte_val b); intros
           end;
    change (2 ^ 32) with 4294967296; change (2 ^ 24) with 16777216;
    change (2 ^ 16) with 65536; change (2 ^ 8) with 256; change (2 ^ 0) with 1;
    drop_inner_mod; lia.
Qed.

Lemma big_endian_range (bs : list byte) :
  1 <= Slice.len bs <= 3 -> 0 <= big_endian bs < 2 ^ 24.
Proof.
  intros Hl. unfold Slice.len in Hl.
  destruct bs as [|b0 [|b1 [|b2 [|b3 bs]]]]; simpl length in Hl; try lia;
    clear Hl; unfold big_endian; cbn [length be_sum];
    close_exponents; rewrite ?Z.shiftl_mul_pow2 by lia;
    repeat match goal with
           | |- context [byte_val ?b] =>
               pose proof (byte_val_range b); generalize dependent (byte_val b); intros
           end;
    change (2 ^ 24) with 16777216;
    change (2 ^ 16) with 65536; change (2 ^ 8) with 256; change (2 ^ 0) with 1;
    lia.
Qed.

Lemma be_sum_nonneg (L i : Z) (bs : list byte) : 0 <= be_sum L i bs.
Proof.
  revert i. induction bs as [|b bs IH]; intros i; cbn [be_sum]; [lia|].
  specialize (IH (i + 1)).
  assert (0 <= Z.shiftl (byte_val b) (8 * (L - 1 - i))).
  { apply Z.shiftl_nonneg. apply byte_val_range. }
  lia.
Qed.

Lemma big_endian_nonneg (bs : list byte) : 0 <= big_endian bs.
Proof. apply be_sum_nonneg. Qed.

(** C3, as stated, fails: the four bytes 01 00 00 01 stand for 16777217,
    which is not a float32; [unpack] returns 16777216. *)
Lemma unpack_exact_counterexample :
  ~ (forall bs : list byte,
       1 <= Slice.len bs <= 4 -> represents (unpack bs) (big_endian bs)).
Proof.
  intros H.
  specialize (H [Byte.x01; Byte.x00; Byte.x00; Byte.x01]).
  assert (Hl : 1 <= Slice.len [Byte.x01; Byte.x00; Byte.x00; Byte.x01] <= 4)
    by (vm_compute; split; discriminate).
  specialize (H Hl). vm_compute in H. discriminate H.
Qed.

(** C3, amended: for every byte sequence of length 1 to 4, [unpack] returns
    the float32 nearest to the big-endian unsigned value of the sequence
    (the sum of [byte[i] << 8*(L-1-i)]); the result is that value exactly
    whenever it is below [2^24], hence for every sequence of length 1 to 3;
    [unpack([0x01,0x02])] is 258 and [unpack([0x00,0x64])] is 100. *)
Theorem unpack_big_endian (bs : list byte) :
  1 <= Slice.len bs <= 4 ->
  unpack bs = of_Z (big_endian bs) /\
  (big_endian bs < 2 ^ 24 -> represents (unpack bs) (big_endian bs)) /\
  (Slice.len bs <= 3 -> represents (unpack bs) (big_endian bs)) /\
  represents (unpack [Byte.x01; Byte.x02]) 258 /\
  represents (unpack [Byte.x00; Byte.x64]) 100.
Proof.
  intros Hl.
  assert (Hu : unpack bs = of_Z (big_endian bs)).
  { unfold unpack. now rewrite unpack_bits_big_endian. }
  split; [exact Hu|]. rewrite Hu.
  split; [|split; [|split]].
  - intros Hb. apply of_Z_exact. pose proof (big_endian_nonneg bs). lia.
  - intros H3. apply of_Z_exact. apply big_endian_range. lia.
  - vm_compute. reflexivity.
  - vm_compute. reflexivity.
Qed.

Lemma unpack_big_endian_witness :
  1 <= Slice.len [Byte.x12; Byte.x34; Byte.x56] <= 4 /\
  represents (unpack [Byte.x12; Byte.x34; Byte.x56]) 1193046.
Proof.
  assert (Hl : 1 <= Slice.len [Byte.x12; Byte.x34; Byte.x56] <= 4)
    by (vm_compute; split; discriminate).
  split; [exact Hl|].
  destruct (unpack_big_endian [Byte.x12; Byte.x34; Byte.x56] Hl) as (_ & _ & H & _).
  apply H. vm_compute. discriminate.
Defined.

(** ** Slices of a buffer that is long enough *)

Lemma slice_ok (l : list byte) (lo hi : Z) :
  0 <= lo <= hi -> hi <= Slice.len l ->
  Slice.slice l lo hi = Some (Slice.window l lo hi).
Proof.
  intros H1 H2. unfold Slice.slice.
  destruct (Z.leb_spec 0 lo); [|lia].
  destruct (Z.leb_spec lo hi); [|lia].
  destruct (Z.leb_spec hi (Slice.len l)); [|lia].
  reflexivity.
Qed.

Lemma index_ok (l : list byte) (i : Z) :
  0 <= i < Slice.len l ->
  Slice.index l i = Some (nth (Z.to_nat i) l Byte.x00).
Proof.
  intros H. unfold Slice.index.
  destruct (Z.leb_spec 0 i); [|lia].
  destruct (Z.ltb_spec i (Slice.len l)); [|lia].
  cbn [andb]. apply nth_error_nth'. unfold Slice.len in H. lia.
Qed.

(** ** The decoding step *)

(** On a buffer of 120 bytes no index and no slice of the decoding step is
    out of range, and the snapshot is this one. *)
Lemma decode_eq (now : Z) (buffer : list byte) :
  Slice.len buffer = 120 ->
  decode now buffer =
  Some {| Timestamp := Some now;
          Load := byte_val (nth 8 buffer Byte.x00) =? 1;
          ArrayVoltage := scaled buffer 24 26;
          ArrayCurrent := scaled buffer 26 28;
          ArrayPower := scaled buffer 28 30;
          BatteryVoltage := scaled buffer 32 34;
          LoadVoltage := scaled buffer 40 42;
          LoadCurrent := scaled buffer 42 44;
          LoadPower := scaled buffer 44 46;
          BatteryTemp := scaled buffer 56 58;
          DeviceTemp := scaled buffer 58 60;
          BatterySOC := byte_val (nth 65 buffer Byte.x00);
          BatteryCurrent :=
            div (sign_corrected (unpack (Slice.window buffer 73 75))) (of_Z 100);
          BatteryMaxVoltage := scaled buffer 82 84;
          BatteryMinVoltage := scaled buffer 84 86;
          EnergyConsumedDaily := scaled buffer 86 88;
          EnergyConsumedMonthly := scaled buffer 88 92;
          EnergyConsumedAnnual := scaled buffer 92 96;
          EnergyConsumedTotal := scaled buffer 96 100;
          EnergyGeneratedDaily := scaled buffer 100 104;
          EnergyGeneratedMonthly := scaled buffer 104 108;
          EnergyGeneratedAnnual := scaled buffer 108 112;
          EnergyGeneratedTotal := scaled buffer 112 116 |}.
Proof.
  intros H. unfold decode, field.
  rewrite !slice_ok by lia. rewrite !index_ok by lia.
  reflexivity.
Qed.

(** C2: the sign correction of battery current, evaluated on the code.
    Whatever the buffer, [BatteryCurrent] is the raw value of bytes 73 and 74,
    less 65536 when it exceeds 32768, divided by 100.  Raw 32767 gives
    +327.67, raw 0 gives 0 and raw 32769 gives -327.67; raw 32768 (bytes
    80 00) is not corrected and gives +327.68, not -327.68. *)
Theorem battery_current_boundary (now : Z) (buffer : list byte) :
  Slice.len buffer = 120 ->
  exists t s,
    decode now buffer = Some t /\ Slice.slice buffer 73 75 = Some s /\
    BatteryCurrent t = div (sign_corrected (unpack s)) (of_Z 100) /\
    (s = [Byte.x80; Byte.x00] ->
       represents (unpack s) 32768 /\
       BatteryCurrent t = S754_finite false 10737418 (-15) /\
       nearest (32768 # 100) (BatteryCurrent t) /\
       ~ nearest (- 32768 # 100) (BatteryCurrent t)) /\
    (s = [Byte.x7f; Byte.xff] ->
       represents (unpack s) 32767 /\ nearest (32767 # 100) (BatteryCurrent t)) /\
    (s = [Byte.x00; Byte.x00] ->
       represents (unpack s) 0 /\ BatteryCurrent t = S754_zero false) /\
    (s = [Byte.x80; Byte.x01] ->
       represents (unpack s) 32769 /\ nearest (- 32767 # 100) (BatteryCurrent t)).
Proof.
  intros H. eexists. exists (Slice.window buffer 73 75).
  split; [apply decode_eq; exact H|].
  split; [apply slice_ok; lia|].
  cbn [BatteryCurrent].
  split; [reflexivity|].
  repeat split; rewrite H0; try by_evaluation.
  intros (_ & _ & Hn). vm_compute in Hn. apply Hn. reflexivity.
Qed.

Lemma battery_current_boundary_witness :
  exists t,
    decode 0 (Slice.store (Slice.make 120) 73 [Byte.x80; Byte.x00]) = Some t /\
    BatteryCurrent t = S754_finite false 10737418 (-15).
Proof.
  destruct (battery_current_boundary 0
              (Slice.store (Slice.make 120) 73 [Byte.x80; Byte.x00]))
    as (t & s & Hd & Hs & _ & H32768 & _).
  { vm_compute. reflexivity. }
  exists t. split; [exact Hd|].
  apply H32768. vm_compute in Hs. congruence.
Defined.

(** C6, as stated, fails for battery current: with bytes FF FF at positions
    73 and 74 the raw value is 65535, and the field is (65535 - 65536)/100,
    not 65535/100. *)
Lemma decode_scaling_counterexample :
  ~ (forall (now : Z) (buffer : list byte) (t : TracerStatus),
       Slice.len buffer = 120 -> decode now buffer = Some t ->
       Forall (scaled_raw t buffer) float_fields).
Proof.
  intros H.
  pose (buffer := Slice.store (Slice.make 120) 73 [Byte.xff; Byte.xff]).
  assert (Hl : Slice.len buffer = 120) by (vm_compute; reflexivity).
  pose proof (decode_eq 0 buffer Hl) as Hd.
  specialize (H 0 buffer _ Hl Hd).
  apply Forall_inv in H. destruct H as (s & Hs & Hbc).
  cbn [fst snd] in Hs, Hbc. vm_compute in Hs.
  injection Hs as <-. vm_compute in Hbc. discriminate Hbc.
Qed.

(** C6, amended: on every assembled buffer each float32 field other than
    battery current is the value [unpack] gives for its byte range divided
    by 100, and battery current is that value, less 65536 when it exceeds
    32768, divided by 100; raw 1234 decodes to 12.34. *)
Theorem decode_scaling (now : Z) (buffer : list byte) :
  Slice.len buffer = 120 ->
  exists t,
    decode now buffer = Some t /\
    Forall (scaled_raw t buffer) unsigned_fields /\
    (exists s, Slice.slice buffer 73 75 = Some s /\
               BatteryCurrent t = div (sign_corrected (unpack s)) (of_Z 100)) /\
    represents (unpack [Byte.x04; Byte.xd2]) 1234 /\
    nearest (1234 # 100) (div (unpack [Byte.x04; Byte.xd2]) (of_Z 100)).
Proof.
  intros H. eexists. split; [apply decode_eq; exact H|].
  split; [|split; [|split]].
  - unfold unsigned_fields.
    repeat (apply Forall_cons;
            [eexists; cbn [fst snd]; split; [apply slice_ok; lia|reflexivity]|]).
    apply Forall_nil.
  - eexists. split; [apply slice_ok; lia|reflexivity].
  - by_evaluation.
  - by_evaluation.
Qed.

Lemma decode_scaling_witness :
  exists t,
    decode 7 (Slice.store (Slice.make 120) 24 [Byte.x04; Byte.xd2]) = Some t /\
    Forall (scaled_raw t (Slice.store (Slice.make 120) 24 [Byte.x04; Byte.xd2]))
           unsigned_fields.
Proof.
  destruct (decode_scaling 7 (Slice.store (Slice.make 120) 24 [Byte.x04; Byte.xd2]))
    as (t & Hd & Hf & _).
  { vm_compute. reflexivity. }
  exists t. split; assumption.
Defined.

(** C9: decoding the same assembled 120-byte buffer twice, at whatever two
    instants, gives two snapshots equal in every field except the
    timestamp. *)
Theorem decode_deterministic (now1 now2 : Z) (buffer : list byte) :
  Slice.len buffer = 120 ->
  exists t1 t2,
    decode now1 buffer = Some t1 /\ decode now2 buffer = Some t2 /\
    same_fields t1 t2 /\
    Timestamp t1 = Some now1 /\ Timestamp t2 = Some now2.
Proof.
  intros H. do 2 eexists.
  split; [apply decode_eq; exact H|].
  split; [apply decode_eq; exact H|].
  repeat split.
Qed.

Lemma decode_deterministic_witness :
  exists t1 t2,
    decode 1 (Slice.make 120) = Some t1 /\ decode 2 (Slice.make 120) = Some t2 /\
    same_fields t1 t2.
Proof.
  destruct (decode_deterministic 1 2 (Slice.make 120)) as (t1 & t2 & H1 & H2 & Hs & _).
  { vm_compute. reflexivity. }
  exists t1, t2. repeat split; assumption.
Defined.

(** ** Storing into a buffer *)

Lemma len_nonneg (l : list byte) : 0 <= Slice.len l.
Proof. unfold Slice.len. lia. Qed.

Lemma store_len (l xs : list byte) (off : Z) :
  0 <= off -> off + Slice.len xs <= Slice.len l ->
  Slice.len (Slice.store l off xs) = Slice.len l.
Proof.
  unfold Slice.store, Slice.len. intros H1 H2.
  rewrite !length_app, length_firstn, length_skipn. lia.
Qed.

Lemma store_below (l xs : list byte) (off : Z) (j : nat) :
  0 <= off <= Slice.len l -> (j < Z.to_nat off)%nat ->
  nth j (Slice.store l off xs) Byte.x00 = nth j l Byte.x00.
Proof.
  unfold Slice.store, Slice.len. intros H1 H2.
  rewrite app_nth1 by (rewrite length_firstn; lia).
  rewrite nth_firstn.
  destruct (Nat.ltb_spec j (Z.to_nat off)); [reflexivity|lia].
Qed.

Lemma store_at (l xs : list byte) (off : Z) (k : nat) :
  0 <= off <= Slice.len l -> (k < length xs)%nat ->
  nth (Z.to_nat off + k) (Slice.store l off xs) Byte.x00 = nth k xs Byte.x00.
Proof.
  unfold Slice.store, Slice.len. intros H1 H2.
  rewrite app_nth2 by (rewrite length_firstn; lia).
  rewrite length_firstn.
  replace (Z.to_nat off + k - Nat.min (Z.to_nat off) (length l))%nat with k by lia.
  apply app_nth1. exact H2.
Qed.

(** [copy(dst[off:], src)]: the length stays, what lies below [off] stays,
    and [src] lands from [off] on, as far as it fits. *)
Lemma copy_from_spec (dst src dst' : list byte) (off : Z) :
  Slice.copy_from dst off src = Some dst' ->
  0 <= off <= Slice.len dst /\
  Slice.len dst' = Slice.len dst /\
  (forall j, (j < Z.to_nat off)%nat -> nth j dst' Byte.x00 = nth j dst Byte.x00) /\
  (forall k, 0 <= k < Z.min (Slice.len dst - off) (Slice.len src) ->
             nth (Z.to_nat (off + k)) dst' Byte.x00 = nth (Z.to_nat k) src Byte.x00).
Proof.
  unfold Slice.copy_from.
  destruct (Z.leb_spec 0 off); [|discriminate].
  destruct (Z.leb_spec off (Slice.len dst)); [|discriminate].
  cbn [andb]. intros [= <-].
  set (m := Z.min (Slice.len dst - off) (Slice.len src)).
  assert (Hm : Slice.len (firstn (Z.to_nat m) src) = m).
  { unfold Slice.len in *. rewrite length_firstn. lia. }
  split; [lia|]. split; [|split].
  - apply store_len; lia.
  - intros j Hj. apply store_below; lia.
  - intros k Hk. rewrite Z2Nat.inj_add by lia.
    rewrite store_at; [|lia|unfold Slice.len in Hm; lia].
    rewrite nth_firstn.
    destruct (Nat.ltb_spec (Z.to_nat k) (Z.to_nat m)); [reflexivity|lia].
Qed.

Lemma copy_from_ok (dst src : list byte) (off : Z) :
  0 <= off <= Slice.len dst -> exists dst', Slice.copy_from dst off src = Some dst'.
Proof.
  intros H. unfold Slice.copy_from.
  destruct (Z.leb_spec 0 off); [|lia].
  destruct (Z.leb_spec off (Slice.len dst)); [|lia].
  eexists. reflexivity.
Qed.

(** ** [io.ReadAtLeast] and [readWithTimeout] *)

Lemma make_len (n : Z) : 0 <= n -> Slice.len (Slice.make n) = n.
Proof.
  intros H. unfold Slice.len, Slice.make. rewrite repeat_length. lia.
Qed.

(** The loop keeps the buffer's length, never counts more bytes than the
    buffer holds, and leaves without an error only with [min] bytes read. *)
Lemma read_loop_returned (evs : list read_event) :
  forall buf min n err elapsed rest buf' n' err' elapsed',
    0 <= n <= Slice.len buf -> min <= Slice.len buf ->
    read_loop evs buf min n err elapsed = Returned rest buf' n' err' elapsed' ->
    Slice.len buf' = Slice.len buf /\ n <= n' <= Slice.len buf /\
    (err' = None -> min <= n').
Proof.
  induction evs as [|ev evs IH]; intros buf min n err elapsed rest buf' n' err' elapsed'
    Hn Hmin; cbn [read_loop].
  - destruct (Z.ltb_spec n min) as [Hlt|Hge]; cbn [andb].
    + destruct err; [|discriminate].
      intros [= <- <- <- <- <-]. repeat split; try lia. discriminate.
    + intros [= <- <- <- <- <-]. repeat split; lia.
  - destruct (Z.ltb_spec n min) as [Hlt|Hge]; cbn [andb].
    2:{ intros [= <- <- <- <- <-]. repeat split; lia. }
    destruct err as [e|].
    { intros [= <- <- <- <- <-]. repeat split; try lia. discriminate. }
    set (room := Z.to_nat (Slice.len buf - n)).
    assert (Hgot : Slice.len (firstn room (bytes ev)) <= Slice.len buf - n).
    { unfold room, Slice.len in *. rewrite length_firstn. lia. }
    pose proof (len_nonneg (firstn room (bytes ev))) as Hgot0.
    assert (Hst : Slice.len (Slice.store buf n (firstn room (bytes ev))) = Slice.len buf)
      by (apply store_len; lia).
    destruct (skipn room (bytes ev)) as [|x left] eqn:Hleft.
    + intros Hr. apply IH in Hr; [|lia|lia].
      destruct Hr as (H1 & H2 & H3). rewrite Hst in *. repeat split; try lia. exact H3.
    + intros [= <- <- <- <- <-].
      assert (Hlong : (room < length (bytes ev))%nat).
      { destruct (Nat.lt_ge_cases room (length (bytes ev))) as [|Hge]; [assumption|].
        rewrite skipn_all2 in Hleft by exact Hge. discriminate. }
      assert (Slice.len (firstn room (bytes ev)) = Slice.len buf - n).
      { unfold room, Slice.len in *. rewrite length_firstn. lia. }
      repeat split; lia.
Qed.

Lemma ReadAtLeast_returned (evs rest : list read_event) (buf buf' : list byte)
    (min n : Z) (err : option error) (elapsed : Z) :
  ReadAtLeast evs buf min = Returned rest buf' n err elapsed ->
  Slice.len buf' = Slice.len buf /\ 0 <= n <= Slice.len buf /\
  (err = None -> min <= n).
Proof.
  unfold ReadAtLeast.
  destruct (Z.ltb_spec (Slice.len buf) min) as [Hs|Hs].
  - intros [= <- <- <- <- <-]. pose proof (len_nonneg buf).
    repeat split; try lia. discriminate.
  - destruct (read_loop evs buf min 0 None 0) as [|r b c e el] eqn:Hloop; [discriminate|].
    intros [= <- <- <- <- <-].
    apply read_loop_returned in Hloop; [|pose proof (len_nonneg buf); lia|lia].
    destruct Hloop as (H1 & H2 & H3). repeat split; try lia.
    destruct (Z.leb_spec min c); [lia|].
    destruct e as [[]|]; try discriminate; [destruct (0 <? c); discriminate|].
    intros _. apply H3. reflexivity.
Qed.

(** A successful bounded read: the read returned first, and what comes back
    is its buffer of 120 bytes with at least [n] of them read. *)
Lemma readWithTimeout_ok (p p' : Port) (n : Z) (b : list byte) :
  readWithTimeout p n = (p', b, None) ->
  exists rest cnt elapsed,
    ReadAtLeast (incoming p) (Slice.make 120) n = Returned rest b cnt None elapsed /\
    p' = advance (set_incoming p rest) elapsed /\
    Slice.len b = 120 /\ n <= cnt <= 120 /\ read_count p n = cnt.
Proof.
  unfold readWithTimeout, read_count.
  destruct (ReadAtLeast (incoming p) (Slice.make 120) n) as [|rest buf cnt err el] eqn:Hr;
    [discriminate|].
  destruct ((el <? timeout_ns) || ((el =? timeout_ns) && tie_read_first p));
    [|discriminate].
  intros [= <- <- ->]. exists rest, cnt, el.
  apply ReadAtLeast_returned in Hr. rewrite make_len in Hr by lia.
  destruct Hr as (H1 & H2 & H3). specialize (H3 eq_refl).
  repeat split; try lia; reflexivity.
Qed.

Lemma readWithTimeout_written (p p' : Port) (n : Z) (b : list byte) (err : option error) :
  readWithTimeout p n = (p', b, err) ->
  written p' = written p /\ write_errs p' = write_errs p /\ open_err p' = open_err p.
Proof.
  unfold readWithTimeout.
  destruct (ReadAtLeast (incoming p) (Slice.make 120) n) as [|rest buf cnt e el].
  - intros [= <- <- <-]. repeat split.
  - destruct ((el <? timeout_ns) || ((el =? timeout_ns) && tie_read_first p));
      intros [= <- <- <-]; repeat split.
Qed.

Lemma port_write_written (p p' : Port) (frame : list byte) (err : option error) :
  port_write p frame = (p', err) -> written p' = written p ++ [frame].
Proof.
  unfold port_write. destruct (write_errs p); intros [= <- <-]; reflexivity.
Qed.

(** ** The exchange loop *)

Lemma tiles_le (cmds : list command) :
  forall from upto, tiles from upto cmds -> from <= upto.
Proof.
  induction cmds as [|c cmds IH]; intros from upto; cbn [tiles].
  - lia.
  - intros (_ & Hpos & Ht). apply IH in Ht. lia.
Qed.

(** For any command table that tiles the buffer from [from] on, a loop that
    runs to its end leaves what lies below [from] alone and has every
    reply at its command's offset. *)
Lemma exchanges_placement (cmds : list command) :
  forall from p buffer p' buffer',
    tiles from 120 cmds -> 0 <= from -> Slice.len buffer = 120 ->
    exchanges cmds p buffer = Some (p', buffer', None) ->
    Slice.len buffer' = 120 /\
    (forall j, (j < Z.to_nat from)%nat -> nth j buffer' Byte.x00 = nth j buffer Byte.x00) /\
    (forall i d r k,
        nth_error cmds i = Some d -> nth_error (received cmds p) i = Some r ->
        0 <= k < respLen d ->
        nth (Z.to_nat (offset d + k)) buffer' Byte.x00 = nth (Z.to_nat k) r Byte.x00).
Proof.
  induction cmds as [|c cmds IH]; intros from p buffer p' buffer' Ht Hfrom Hlen Hex.
  - cbn in Hex. injection Hex as <- <-. split; [assumption|]. split; [reflexivity|].
    intros i d r k Hd. destruct i; discriminate.
  - cbn [exchanges received] in Hex |- *.
    destruct Ht as (Hoff & Hpos & Ht).
    destruct (port_write p (data c)) as [p1 [e|]]; [discriminate|].
    destruct (readWithTimeout p1 (respLen c)) as [[p2 b] [e|]] eqn:Hread; [discriminate|].
    destruct (Slice.copy_from buffer (offset c) b) as [buffer1|] eqn:Hcopy; [|discriminate].
    apply copy_from_spec in Hcopy. destruct Hcopy as (Hrange & Hl1 & Hbelow & Hat).
    apply readWithTimeout_ok in Hread.
    destruct Hread as (rest & cnt & el & _ & _ & Hb & Hcnt & Hrc).
    pose proof (tiles_le _ _ _ Ht) as Hle.
    destruct (IH (from + respLen c) p2 buffer1 p' buffer' Ht) as (IH1 & IH2 & IH3);
      [lia|lia|exact Hex|].
    split; [exact IH1|]. split.
    + intros j Hj. rewrite IH2 by lia. apply Hbelow. lia.
    + intros [|i] d r k Hd Hr Hk; cbn [nth_error] in Hd, Hr.
      * injection Hd as <-. injection Hr as <-.
        rewrite IH2 by lia. rewrite Hat by lia.
        rewrite nth_firstn, Hrc.
        destruct (Nat.ltb_spec (Z.to_nat k) (Z.to_nat cnt)); [reflexivity|lia].
      * apply IH3 with (i := i); assumption.
Qed.

Lemma exchanges_len (cmds : list command) :
  forall p buffer p' buffer' err,
    exchanges cmds p buffer = Some (p', buffer', err) ->
    Slice.len buffer' = Slice.len buffer.
Proof.
  induction cmds as [|c cmds IH]; intros p buffer p' buffer' err; cbn [exchanges].
  - intros [= <- <- <-]. reflexivity.
  - destruct (port_write p (data c)) as [p1 [e|]]; [intros [= <- <- <-]; reflexivity|].
    destruct (readWithTimeout p1 (respLen c)) as [[p2 b] [e|]];
      [intros [= <- <- <-]; reflexivity|].
    destruct (Slice.copy_from buffer (offset c) b) as [buffer1|] eqn:Hcopy; [|discriminate].
    intros Hex. apply IH in Hex. apply copy_from_spec in Hcopy. lia.
Qed.

(** The loop never panics on a table whose offsets lie in the buffer. *)
Lemma exchanges_total (cmds : list command) :
  forall p buffer,
    Forall (fun c => 0 <= offset c <= Slice.len buffer) cmds ->
    exists r, exchanges cmds p buffer = Some r.
Proof.
  induction cmds as [|c cmds IH]; intros p buffer Hall; cbn [exchanges].
  - eexists. reflexivity.
  - inversion Hall as [|? ? Hc Hcs]; subst.
    destruct (port_write p (data c)) as [p1 [e|]]; [eexists; reflexivity|].
    destruct (readWithTimeout p1 (respLen c)) as [[p2 b] [e|]]; [eexists; reflexivity|].
    destruct (copy_from_ok buffer b (offset c) Hc) as (buffer1 & Hcopy).
    rewrite Hcopy. apply IH.
    apply copy_from_spec in Hcopy. destruct Hcopy as (_ & -> & _). exact Hcs.
Qed.

(** The frames written by the loop are those of the commands it has
    started, in order, each once. *)
Lemma exchanges_written (cmds : list command) :
  forall p buffer p' buffer' err,
    exchanges cmds p buffer = Some (p', buffer', err) ->
    exists k, (k <= length cmds)%nat /\
              written p' = written p ++ map data (firstn k cmds) /\
              (err = None -> k = length cmds) /\
              (err <> None -> (0 < k)%nat).
Proof.
  induction cmds as [|c cmds IH]; intros p buffer p' buffer' err; cbn [exchanges].
  - intros [= <- <- <-]. exists 0%nat. cbn. rewrite app_nil_r.
    repeat split; try lia. congruence.
  - destruct (port_write p (data c)) as [p1 werr] eqn:Hw.
    apply port_write_written in Hw.
    destruct werr as [e|].
    { intros [= <- <- <-]. exists 1%nat. cbn [length firstn map].
      repeat split; try lia; [exact Hw|discriminate]. }
    destruct (readWithTimeout p1 (respLen c)) as [[p2 b] rerr] eqn:Hr.
    apply readWithTimeout_written in Hr. destruct Hr as (Hr & _).
    destruct rerr as [e|].
    { intros [= <- <- <-]. exists 1%nat. cbn [length firstn map].
      repeat split; try lia; [congruence|discriminate]. }
    destruct (Slice.copy_from buffer (offset c) b) as [buffer1|]; [|discriminate].
    intros Hex. apply IH in Hex. destruct Hex as (k & Hk & Hwr & Hnone & Hsome).
    exists (S k). cbn [length firstn map].
    repeat split; try lia.
    + rewrite Hwr, Hr, Hw, <- app_assoc. reflexivity.
    + intros H. rewrite Hnone by exact H. reflexivity.
Qed.

Lemma exchanges_app (xs ys : list command) :
  forall p buffer,
    exchanges (xs ++ ys) p buffer =
    match exchanges xs p buffer with
    | Some (p1, buffer1, None) => exchanges ys p1 buffer1
    | other => other
    end.
Proof.
  induction xs as [|c xs IH]; intros p buffer; cbn [app exchanges].
  - reflexivity.
  - destruct (port_write p (data c)) as [p1 [e|]]; [reflexivity|].
    destruct (readWithTimeout p1 (respLen c)) as [[p2 b] [e|]]; [reflexivity|].
    destruct (Slice.copy_from buffer (offset c) b) as [buffer1|]; [|reflexivity].
    apply IH.
Qed.

(** A step that fails ends the loop there, whatever commands remain. *)
Lemma exchanges_step_fails (d : command) (rest : list command) (p pf : Port)
    (buffer : list byte) (e : error) :
  step_fails p d e pf ->
  exchanges (d :: rest) p buffer = Some (pf, buffer, Some e).
Proof.
  intros [Hw|(p1 & b & Hw & Hr)]; cbn [exchanges]; rewrite Hw; [reflexivity|].
  rewrite Hr. reflexivity.
Qed.

Lemma table_offsets :
  Forall (fun c => 0 <= offset c <= Slice.len (Slice.make 120)) queryStateCommand.
Proof.
  repeat (apply Forall_cons; [vm_compute; split; discriminate|]). apply Forall_nil.
Qed.

Lemma table_tiles : tiles 0 120 queryStateCommand.
Proof. cbn. repeat split; lia. Qed.

(** ** [Status] from its loop *)

Lemma Status_completes (p p' : Port) (buffer : list byte) :
  open_err p = None ->
  exchanges queryStateCommand p (Slice.make 120) = Some (p', buffer, None) ->
  Slice.len buffer = 120 /\
  exists t, Status p = Some (port_close p', t, None) /\
            decode (clock p') buffer = Some t.
Proof.
  intros Ho Hex. pose proof (exchanges_len _ _ _ _ _ _ Hex) as Hl.
  rewrite make_len in Hl by lia. split; [exact Hl|].
  unfold Status. rewrite Ho, Hex, (decode_eq _ _ Hl).
  eexists. split; reflexivity.
Qed.

Lemma Status_aborts (p p' : Port) (buffer : list byte) (e : error) :
  open_err p = None ->
  exchanges queryStateCommand p (Slice.make 120) = Some (p', buffer, Some e) ->
  Status p = Some (port_close p', zeroStatus, Some e).
Proof.
  intros Ho Hex. unfold Status. rewrite Ho, Hex. reflexivity.
Qed.

(** C1: in every run of [Status] in which the five exchanges succeed and
    each reply has its command's declared length, the buffer handed to the
    decoding step has 120 bytes and, for every command [d] of the table and
    every [k] with [0 <= k < respLen d], its byte at [offset d + k] is byte
    [k] of the reply received for [d]. *)
Theorem buffer_placement (p p' : Port) (buffer : list byte) :
  open_err p = None ->
  exchanges queryStateCommand p (Slice.make 120) = Some (p', buffer, None) ->
  Forall2 (fun d r => Slice.len r = respLen d)
          queryStateCommand (received queryStateCommand p) ->
  (exists t, Status p = Some (port_close p', t, None) /\
             decode (clock p') buffer = Some t) /\
  Slice.len buffer = 120 /\
  forall i d r k,
    nth_error queryStateCommand i = Some d ->
    nth_error (received queryStateCommand p) i = Some r ->
    0 <= k < respLen d ->
    exists x, Slice.index buffer (offset d + k) = Some x /\ Slice.index r k = Some x.
Proof.
  intros Ho Hex Hlens.
  destruct (Status_completes p p' buffer Ho Hex) as (Hl & Ht).
  split; [exact Ht|]. split; [exact Hl|].
  intros i d r k Hd Hr Hk.
  pose proof (Forall2_nth_error _ _ _ Hlens i d r Hd Hr) as Hlen. cbn beta in Hlen.
  destruct (exchanges_placement queryStateCommand 0 p (Slice.make 120) p' buffer)
    as (_ & _ & Hplace); [exact table_tiles|lia|apply make_len; lia|exact Hex|].
  specialize (Hplace i d r k Hd Hr Hk).
  exists (nth (Z.to_nat k) r Byte.x00). split.
  - rewrite index_ok.
    + rewrite Hplace. reflexivity.
    + rewrite Hl.
      destruct i as [|[|[|[|[|[|i]]]]]]; cbn in Hd; try discriminate;
        injection Hd as <-; cbn [offset respLen] in *; lia.
  - apply index_ok. lia.
Qed.

Lemma buffer_placement_witness :
  exists p' buffer,
    exchanges queryStateCommand sample_port (Slice.make 120) = Some (p', buffer, None) /\
    received queryStateCommand sample_port = sample_replies /\
    Slice.index buffer (17 + 8) = Some Byte.xd2.
Proof.
  pose (r := exchanges queryStateCommand sample_port (Slice.make 120)).
  pose (p' := match r with Some (q, _, _) => q | None => sample_port end).
  pose (buffer := match r with Some (_, b, _) => b | None => [] end).
  assert (Hex : exchanges queryStateCommand sample_port (Slice.make 120)
                = Some (p', buffer, None)) by (vm_compute; reflexivity).
  assert (Hrec : received queryStateCommand sample_port = sample_replies)
    by (vm_compute; reflexivity).
  exists p', buffer. split; [exact Hex|]. split; [exact Hrec|].
  destruct (buffer_placement sample_port p' buffer) as (_ & _ & H).
  - reflexivity.
  - exact Hex.
  - rewrite Hrec. repeat constructor.
  - destruct (H 2%nat (mkCommand [Byte.x01; Byte.x43; Byte.x31; Byte.x00; Byte.x00;
                                 Byte.x1b; Byte.x0a; Byte.xf2] 51 17)
                (nth 2 sample_replies []) 8) as (x & Hb & Hx).
    + reflexivity.
    + rewrite Hrec. reflexivity.
    + cbn [respLen]. lia.
    + cbn [offset] in Hb. rewrite Hb. rewrite <- Hx. vm_compute. reflexivity.
Defined.

Lemma step_fails_written (p pf : Port) (d : command) (e : error) :
  step_fails p d e pf -> written pf = written p ++ [data d].
Proof.
  intros [Hw|(p1 & b & Hw & Hr)].
  - eapply port_write_written; eassumption.
  - apply readWithTimeout_written in Hr. destruct Hr as (-> & _).
    eapply port_write_written; eassumption.
Qed.

(** A failure at command [i], after [i] good exchanges, is what [Status]
    returns: the error, no snapshot, the port closed, and on the wire the
    frames of commands [0] to [i] and nothing more. *)
Lemma Status_aborts_at (p p1 pf : Port) (i : nat) (d : command)
    (buffer1 : list byte) (e : error) :
  open_err p = None ->
  nth_error queryStateCommand i = Some d ->
  exchanges (firstn i queryStateCommand) p (Slice.make 120) = Some (p1, buffer1, None) ->
  step_fails p1 d e pf ->
  Status p = Some (port_close pf, zeroStatus, Some e) /\
  written (port_close pf) = written p ++ map data (firstn (S i) queryStateCommand).
Proof.
  intros Ho Hd Hpre Hfail. split.
  - apply Status_aborts with (buffer := buffer1); [exact Ho|].
    rewrite (split_at _ _ _ Hd) at 1.
    rewrite exchanges_app, Hpre. apply exchanges_step_fails. exact Hfail.
  - cbn [port_close written].
    rewrite (step_fails_written _ _ _ _ Hfail).
    destruct (exchanges_written _ _ _ _ _ _ Hpre) as (k & _ & Hw & Hk & _).
    rewrite (Hk eq_refl), firstn_all in Hw.
    rewrite Hw, (firstn_snoc _ _ _ Hd), map_app, app_assoc. reflexivity.
Qed.

Lemma Status_written (p p' : Port) (t : TracerStatus) (err : option error) :
  Status p = Some (p', t, err) ->
  exists k, (k <= 5)%nat /\
            written p' = written p ++ map data (firstn k queryStateCommand) /\
            (err = None -> k = 5%nat).
Proof.
  unfold Status. destruct (open_err p) as [e|].
  { intros [= <- <- <-]. exists 0%nat. cbn. rewrite app_nil_r.
    repeat split; [lia|discriminate]. }
  destruct (exchanges queryStateCommand p (Slice.make 120)) as [[[q buffer] oe]|] eqn:Hex;
    [|discriminate].
  apply exchanges_written in Hex. destruct Hex as (k & Hk & Hw & Hnone & _).
  destruct oe as [e|].
  - intros [= <- <- <-]. exists k. repeat split; [exact Hk|exact Hw|discriminate].
  - destruct (decode (clock q) buffer); [|discriminate].
    intros [= <- <- <-]. exists k. repeat split; [exact Hk|exact Hw|].
    intros _. apply Hnone. reflexivity.
Qed.

Lemma Status_total (p : Port) : exists r, Status p = Some r.
Proof.
  unfold Status. destruct (open_err p) as [e|]; [eexists; reflexivity|].
  destruct (exchanges_total queryStateCommand p (Slice.make 120) table_offsets)
    as ([[q buffer] oe] & Hex).
  rewrite Hex. destruct oe as [e|]; [eexists; reflexivity|].
  apply exchanges_len in Hex. rewrite make_len in Hex by lia.
  rewrite (decode_eq _ _ Hex). eexists. reflexivity.
Qed.

Lemma Status_error_no_snapshot (p p' : Port) (t : TracerStatus) (e : error) :
  Status p = Some (p', t, Some e) -> t = zeroStatus.
Proof.
  unfold Status. destruct (open_err p); [intros [= _ <- _]; reflexivity|].
  destruct (exchanges queryStateCommand p (Slice.make 120)) as [[[q buffer] [e'|]]|];
    try discriminate.
  - intros [= _ <- _]. reflexivity.
  - destruct (decode (clock q) buffer); discriminate.
Qed.

Lemma read_late_times_out (p : Port) (n : Z) :
  read_late p n ->
  exists p', readWithTimeout p n = (p', [], Some timed_out) /\
             clock p' = clock p + timeout_ns /\ written p' = written p.
Proof.
  unfold read_late, readWithTimeout.
  destruct (ReadAtLeast (incoming p) (Slice.make 120) n) as [|rest buf cnt err el].
  - intros _. eexists. repeat split.
  - intros Hlate.
    assert (Hc : (el <? timeout_ns) || ((el =? timeout_ns) && tie_read_first p) = false).
    { destruct Hlate as [H|[H1 H2]].
      - destruct (Z.ltb_spec el timeout_ns); [lia|].
        destruct (Z.eqb_spec el timeout_ns); [lia|]. reflexivity.
      - rewrite H1, H2, Z.ltb_irrefl, andb_false_r. reflexivity. }
    rewrite Hc. eexists. repeat split.
Qed.

(** ** The claims on the loop and on [Status] *)

(** C4: the bounded read takes whichever of the read and the 2-second timer
    resolves first: a read that returns before the timer gives its own
    result (without an error only with at least [n] bytes), a read that has
    not returned when the timer fires gives the error "Timed out." after
    exactly 2 seconds.  When that happens at command [i], [Status] returns
    that error and no frame of a later command is written. *)
Theorem timeout_aborts (p : Port) :
  timeout_ns = 2 * 10 ^ 9 /\
  (forall q n rest buf cnt err elapsed,
      ReadAtLeast (incoming q) (Slice.make 120) n = Returned rest buf cnt err elapsed ->
      elapsed < timeout_ns ->
      readWithTimeout q n = (advance (set_incoming q rest) elapsed, buf, err) /\
      (err = None -> n <= cnt)) /\
  (forall q n,
      read_late q n ->
      exists q', readWithTimeout q n = (q', [], Some timed_out) /\
                 clock q' = clock q + timeout_ns) /\
  (forall i d p1 buffer1 p2,
      open_err p = None ->
      nth_error queryStateCommand i = Some d ->
      exchanges (firstn i queryStateCommand) p (Slice.make 120) = Some (p1, buffer1, None) ->
      port_write p1 (data d) = (p2, None) ->
      read_late p2 (respLen d) ->
      exists p', Status p = Some (p', zeroStatus, Some timed_out) /\
                 written p' = written p ++ map data (firstn (S i) queryStateCommand) /\
                 closed p' = true).
Proof.
  split; [reflexivity|]. split; [|split].
  - intros q n rest buf cnt err elapsed Hr Hlt. split.
    + unfold readWithTimeout. rewrite Hr.
      destruct (Z.ltb_spec elapsed timeout_ns); [reflexivity|lia].
    + apply ReadAtLeast_returned in Hr. tauto.
  - intros q n Hlate.
    destruct (read_late_times_out q n Hlate) as (q' & H1 & H2 & _).
    exists q'. split; assumption.
  - intros i d p1 buffer1 p2 Ho Hd Hpre Hw Hlate.
    destruct (read_late_times_out p2 _ Hlate) as (pf & Hr & _).
    destruct (Status_aborts_at p p1 pf i d buffer1 timed_out Ho Hd Hpre) as (Hs & Hwr).
    { right. exists p2, []. split; assumption. }
    exists (port_close pf). repeat split; assumption.
Qed.

Lemma timeout_aborts_witness :
  exists p',
    Status silent_port = Some (p', zeroStatus, Some timed_out) /\
    written p' = map data (firstn 2 queryStateCommand).
Proof.
  destruct (timeout_aborts silent_port) as (_ & _ & _ & H).
  pose (r := exchanges (firstn 1 queryStateCommand) silent_port (Slice.make 120)).
  pose (p1 := match r with Some (q, _, _) => q | None => silent_port end).
  pose (buffer1 := match r with Some (_, b, _) => b | None => [] end).
  destruct (H 1%nat (mkCommand [Byte.x01; Byte.x02; Byte.x20; Byte.x00; Byte.x00;
                                Byte.x01; Byte.xb2; Byte.x0a] 6 11)
              p1 buffer1
              (fst (port_write p1 [Byte.x01; Byte.x02; Byte.x20; Byte.x00; Byte.x00;
                                   Byte.x01; Byte.xb2; Byte.x0a])))
    as (p' & Hs & Hw & _).
  - reflexivity.
  - reflexivity.
  - vm_compute. reflexivity.
  - vm_compute. reflexivity.
  - vm_compute. exact I.
  - exists p'. split; [exact Hs|exact Hw].
Defined.

(** C5: [Status] always returns; when it returns an error it returns the
    zero snapshot and has written a prefix of the table's frames, each
    once.  A step that fails (the write, the read, or the timeout) after
    [i] good exchanges makes [Status] return that very error with the
    frames of commands [0] to [i] written and no other; when the first
    write fails the port has seen exactly one call of [Write]. *)
Theorem error_aborts_query (p : Port) :
  (exists r, Status p = Some r) /\
  (forall p' t e,
      Status p = Some (p', t, Some e) ->
      t = zeroStatus /\
      exists k, (k <= 5)%nat /\
                written p' = written p ++ map data (firstn k queryStateCommand)) /\
  (forall i d p1 buffer1 e pf,
      open_err p = None ->
      nth_error queryStateCommand i = Some d ->
      exchanges (firstn i queryStateCommand) p (Slice.make 120) = Some (p1, buffer1, None) ->
      step_fails p1 d e pf ->
      Status p = Some (port_close pf, zeroStatus, Some e) /\
      written (port_close pf) = written p ++ map data (firstn (S i) queryStateCommand)) /\
  (forall e rest,
      open_err p = None -> write_errs p = Some e :: rest ->
      exists p', Status p = Some (p', zeroStatus, Some e) /\
                 written p' = written p ++ [[Byte.x01; Byte.x04; Byte.x32; Byte.x00;
                                             Byte.x00; Byte.x03; Byte.xbe; Byte.xb3]] /\
                 length (written p') = S (length (written p))).
Proof.
  split; [apply Status_total|]. split; [|split].
  - intros p' t e Hs. split; [eapply Status_error_no_snapshot; eassumption|].
    destruct (Status_written _ _ _ _ Hs) as (k & Hk & Hw & _).
    exists k. split; assumption.
  - intros i d p1 buffer1 e pf. apply Status_aborts_at.
  - intros e rest Ho Hw.
    destruct (port_write p [Byte.x01; Byte.x04; Byte.x32; Byte.x00;
                            Byte.x00; Byte.x03; Byte.xbe; Byte.xb3]) as [pf oe] eqn:Hpw.
    assert (oe = Some e) as ->.
    { unfold port_write in Hpw. rewrite Hw in Hpw. now injection Hpw as _ <-. }
    destruct (Status_aborts_at p p pf 0%nat _ (Slice.make 120) e Ho eq_refl eq_refl)
      as (Hs & Hwr).
    { left. exact Hpw. }
    exists (port_close pf). split; [exact Hs|]. split; [exact Hwr|].
    rewrite Hwr, length_app. cbn. lia.
Qed.

Lemma error_aborts_query_witness :
  exists p',
    Status broken_port = Some (p', zeroStatus, Some (SerialError 5)) /\
    length (written p') = 1%nat.
Proof.
  destruct (error_aborts_query broken_port) as (_ & _ & _ & H).
  destruct (H (SerialError 5) []) as (p' & Hs & _ & Hl).
  - reflexivity.
  - reflexivity.
  - exists p'. split; [exact Hs|exact Hl].
Defined.

Lemma byte_val_one (b : byte) : byte_val b = 1 -> b = Byte.x01.
Proof.
  unfold byte_val. intros H.
  assert (Hn : Byte.to_N b = 1%N) by lia.
  pose proof (Byte.of_to_N b) as Hb. rewrite Hn in Hb.
  cbn in Hb. congruence.
Qed.

(** C7: after five exchanges with replies of the declared lengths [Status]
    returns a snapshot whose [Load] is the comparison of buffer byte 8 with
    1 (any other byte gives [false], and no error) and whose [BatterySOC]
    is buffer byte 65 as it is; with byte 8 = 01, bytes 24 and 25 = 04 D2
    and byte 65 = 50 the snapshot has [Load = true], [ArrayVoltage] the
    float32 12.34 and [BatterySOC = 80]. *)
Theorem status_end_to_end (p p' : Port) (buffer : list byte) :
  open_err p = None ->
  exchanges queryStateCommand p (Slice.make 120) = Some (p', buffer, None) ->
  Forall2 (fun d r => Slice.len r = respLen d)
          queryStateCommand (received queryStateCommand p) ->
  exists t b8 b65,
    Status p = Some (port_close p', t, None) /\
    Slice.index buffer 8 = Some b8 /\ Slice.index buffer 65 = Some b65 /\
    Load t = (byte_val b8 =? 1) /\
    (b8 <> Byte.x01 -> Load t = false) /\
    BatterySOC t = byte_val b65 /\
    (b8 = Byte.x01 -> Slice.slice buffer 24 26 = Some [Byte.x04; Byte.xd2] ->
     b65 = Byte.x50 ->
     Load t = true /\ BatterySOC t = 80 /\
     ArrayVoltage t = S754_finite false 12939428 (-20) /\
     nearest (1234 # 100) (ArrayVoltage t)).
Proof.
  intros Ho Hex _.
  destruct (Status_completes p p' buffer Ho Hex) as (Hl & t & Hs & Hd).
  rewrite (decode_eq _ _ Hl) in Hd. injection Hd as <-.
  eexists. exists (nth 8 buffer Byte.x00), (nth 65 buffer Byte.x00).
  split; [exact Hs|].
  split; [apply (index_ok buffer 8); lia|].
  split; [apply (index_ok buffer 65); lia|].
  cbn [Load BatterySOC ArrayVoltage].
  split; [reflexivity|]. split; [|split; [reflexivity|]].
  - intros Hne. destruct (Z.eqb_spec (byte_val (nth 8 buffer Byte.x00)) 1) as [H1|];
      [|reflexivity].
    apply byte_val_one in H1. contradiction.
  - intros -> Hav ->. rewrite slice_ok in Hav by lia. injection Hav as Hav.
    unfold scaled. rewrite Hav. by_evaluation.
Qed.

Lemma status_end_to_end_witness :
  exists p' t,
    Status sample_port = Some (p', t, None) /\
    Load t = true /\ BatterySOC t = 80 /\
    ArrayVoltage t = S754_finite false 12939428 (-20).
Proof.
  pose (r := exchanges queryStateCommand sample_port (Slice.make 120)).
  pose (p' := match r with Some (q, _, _) => q | None => sample_port end).
  pose (buffer := match r with Some (_, b, _) => b | None => [] end).
  destruct (status_end_to_end sample_port p' buffer)
    as (t & b8 & b65 & Hs & H8 & H65 & _ & _ & _ & H).
  - reflexivity.
  - vm_compute. reflexivity.
  - vm_compute. repeat constructor.
  - exists (port_close p'), t. split; [exact Hs|].
    destruct H as (HL & HS & HV & _).
    + vm_compute in H8. congruence.
    + vm_compute. reflexivity.
    + vm_compute in H65. congruence.
    + repeat split; assumption.
Defined.

(** C8: the command table is these five descriptors, in this order, and no
    run changes it: whatever the port, the frames a call of [Status] writes
    are the first [k] request frames of this table, all five when the call
    succeeds. *)
Theorem frame_table_wire_format :
  map (fun c => (map byte_val (data c), respLen c, offset c)) queryStateCommand =
    [ ([0x01; 0x04; 0x32; 0x00; 0x00; 0x03; 0xbe; 0xb3], 11, 0);
      ([0x01; 0x02; 0x20; 0x00; 0x00; 0x01; 0xb2; 0x0a], 6, 11);
      ([0x01; 0x43; 0x31; 0x00; 0x00; 0x1b; 0x0a; 0xf2], 51, 17);
      ([0x01; 0x04; 0x33; 0x1a; 0x00; 0x03; 0x9e; 0x88], 11, 68);
      ([0x01; 0x04; 0x33; 0x02; 0x00; 0x12; 0xde; 0x83], 41, 79) ] /\
  length queryStateCommand = 5%nat /\
  (forall p p' t err,
      Status p = Some (p', t, err) ->
      exists k, (k <= 5)%nat /\
                written p' = written p ++ map data (firstn k queryStateCommand) /\
                (err = None -> k = 5%nat)).
Proof.
  split; [reflexivity|]. split; [reflexivity|].
  intros p p' t err. apply Status_written.
Qed.

Lemma frame_table_wire_format_witness :
  exists p' t,
    Status sample_port = Some (p', t, None) /\
    written p' = map data queryStateCommand.
Proof.
  destruct frame_table_wire_format as (_ & _ & H).
  pose (r := Status sample_port).
  pose (p' := match r with Some (q, _, _) => q | None => sample_port end).
  pose (t := match r with Some (_, u, _) => u | None => zeroStatus end).
  destruct (H sample_port p' t None) as (k & _ & Hw & Hk).
  - vm_compute. reflexivity.
  - exists p', t. split; [vm_compute; reflexivity|].
    rewrite Hw, (Hk eq_refl). reflexivity.
Defined.

(** C10: the regions of the five commands partition the 120-byte buffer in
    table order: each offset is the previous offset plus the previous
    reply length, from 0 up to 120.  A successful bounded read hands back
    120 bytes, so the copy of an exchange rewrites the buffer from the
    command's offset to its end; it leaves every position below that offset
    alone, and all earlier regions lie there. *)
Theorem table_partitions_buffer :
  tiles 0 120 queryStateCommand /\
  map (fun c => (offset c, offset c + respLen c)) queryStateCommand =
    [(0, 11); (11, 17); (17, 68); (68, 79); (79, 120)] /\
  (forall i j c d,
      (i < j)%nat -> nth_error queryStateCommand i = Some c ->
      nth_error queryStateCommand j = Some d ->
      offset c + respLen c <= offset d) /\
  (forall p n p' b, readWithTimeout p n = (p', b, None) -> Slice.len b = 120) /\
  (forall d buffer b,
      In d queryStateCommand -> Slice.len buffer = 120 -> Slice.len b = 120 ->
      exists buffer',
        Slice.copy_from buffer (offset d) b = Some buffer' /\
        Slice.len buffer' = 120 /\
        (forall j, 0 <= j < offset d -> Slice.index buffer' j = Slice.index buffer j) /\
        (forall j, offset d <= j < 120 ->
                   Slice.index buffer' j = Slice.index b (j - offset d))).
Proof.
  split; [exact table_tiles|]. split; [reflexivity|]. split; [|split].
  - intros i j c d Hij Hc Hd.
    destruct i as [|[|[|[|[|[|i]]]]]]; cbn in Hc; try discriminate;
      injection Hc as <-;
      destruct j as [|[|[|[|[|[|j]]]]]]; cbn in Hd; try discriminate; try lia;
      injection Hd as <-; cbn; lia.
  - intros p n p' b Hr. apply readWithTimeout_ok in Hr.
    destruct Hr as (_ & _ & _ & _ & _ & Hb & _). exact Hb.
  - intros d buffer b Hin Hlen Hb.
    assert (Hoff : 0 <= offset d <= 120).
    { cbn in Hin. repeat destruct Hin as [<-|Hin]; cbn; lia. }
    destruct (copy_from_ok buffer b (offset d)) as (buffer' & Hc); [lia|].
    exists buffer'. split; [exact Hc|].
    apply copy_from_spec in Hc. destruct Hc as (_ & Hl & Hbelow & Hat).
    split; [lia|]. split.
    + intros j Hj. rewrite !index_ok by lia. f_equal. apply Hbelow. lia.
    + intros j Hj. rewrite !index_ok by lia. f_equal.
      specialize (Hat (j - offset d)).
      replace (offset d + (j - offset d)) with j in Hat by lia.
      apply Hat. lia.
Qed.

Lemma table_partitions_buffer_witness :
  exists buffer',
    Slice.copy_from (repeat Byte.xff 120) 11 (Slice.make 120) = Some buffer' /\
    Slice.index buffer' 10 = Some Byte.xff /\
    Slice.index buffer' 119 = Some Byte.x00.
Proof.
  destruct table_partitions_buffer as (_ & _ & _ & _ & H).
  destruct (H (mkCommand [Byte.x01; Byte.x02; Byte.x20; Byte.x00; Byte.x00;
                          Byte.x01; Byte.xb2; Byte.x0a] 6 11)
              (repeat Byte.xff 120) (Slice.make 120))
    as (buffer' & Hc & _ & Hbelow & Hat).
  - cbn. right. left. reflexivity.
  - vm_compute. reflexivity.
  - vm_compute. reflexivity.
  - exists buffer'. cbn [offset] in *. split; [exact Hc|]. split.
    + rewrite Hbelow by lia. vm_compute. reflexivity.
    + rewrite Hat by lia. vm_compute. reflexivity.
Defined.

(** * Further properties of the code *)

(** ** [unpack] on slices of any length *)

Lemma shiftl_byte (b : byte) (k : Z) : 0 <= k -> Z.shiftl (byte_val b) k = byte_val b * 2 ^ k.
Proof. intros H. apply Z.shiftl_mul_pow2. exact H. Qed.

(** One round of the loop adds the shifted byte modulo [2^32]. *)
Lemma add32_shl32 (v : Z) (b : byte) (s : Z) :
  0 <= s -> add32 v (shl32 (byte_val b) s) = (v + byte_val b * 2 ^ s) mod 2 ^ 32.
Proof.
  intros Hs. unfold add32, shl32, wrap32.
  rewrite Z.shiftl_mul_pow2 by exact Hs.
  apply Zplus_mod_idemp_r.
Qed.

Lemma unpack_loop_mod (rest : list byte) :
  forall L i v,
    0 <= i -> i + Slice.len rest = L -> L < 2 ^ 61 -> 0 <= v < 2 ^ 32 ->
    unpack_loop L i rest v = (v + be_sum L i rest) mod 2 ^ 32.
Proof.
  induction rest as [|b rest IH]; intros L i v Hi HL Hbig Hv;
    cbn [unpack_loop be_sum].
  - rewrite Z.add_0_r, Z.mod_small by exact Hv. reflexivity.
  - unfold Slice.len in HL. cbn [length] in HL.
    assert (Hs : to_uint ((L - 1 - i) * 8) = 8 * (L - 1 - i)).
    { unfold to_uint. rewrite Z.mod_small; lia. }
    rewrite Hs, add32_shl32 by lia.
    rewrite IH.
    + rewrite shiftl_byte by lia. rewrite Zplus_mod_idemp_l. f_equal. ring.
    + lia.
    + unfold Slice.len. lia.
    + exact Hbig.
    + apply Z.mod_pos_bound. lia.
Qed.

Lemma be_sum_app (pre suf : list byte) :
  forall L i, be_sum L i (pre ++ suf) = be_sum L i pre + be_sum L (i + Slice.len pre) suf.
Proof.
  induction pre as [|b pre IH]; intros L i; cbn [app be_sum].
  - unfold Slice.len. cbn. f_equal. lia.
  - rewrite IH. unfold Slice.len. cbn [length].
    replace (i + 1 + Z.of_nat (length pre)) with (i + Z.of_nat (S (length pre))) by lia.
    ring.
Qed.

Lemma be_sum_shift (bs : list byte) :
  forall L i c, be_sum (L + c) (i + c) bs = be_sum L i bs.
Proof.
  induction bs as [|b bs IH]; intros L i c; cbn [be_sum]; [reflexivity|].
  replace (i + c + 1) with (i + 1 + c) by lia. rewrite IH.
  do 2 f_equal. lia.
Qed.

(** Bytes that sit four or more places before the end weigh a multiple of
    [2^32]. *)
Lemma be_sum_high (pre : list byte) :
  forall L i, 0 <= i -> i + Slice.len pre + 4 <= L ->
              exists q, be_sum L i pre = q * 2 ^ 32.
Proof.
  induction pre as [|b pre IH]; intros L i Hi HL; cbn [be_sum].
  - exists 0. reflexivity.
  - unfold Slice.len in HL. cbn [length] in HL.
    destruct (IH L (i + 1)) as (q & Hq); [lia|unfold Slice.len; lia|].
    rewrite Hq, shiftl_byte by lia.
    exists (byte_val b * 2 ^ (8 * (L - 1 - i) - 32) + q).
    replace (8 * (L - 1 - i)) with ((8 * (L - 1 - i) - 32) + 32) at 1 by lia.
    rewrite Z.pow_add_r by lia. ring.
Qed.

Lemma big_endian_bound (bs : list byte) :
  0 <= big_endian bs < 2 ^ (8 * Slice.len bs).
Proof.
  split; [apply big_endian_nonneg|].
  unfold big_endian, Slice.len.
  induction bs as [|b bs IH]; cbn [be_sum length]; [cbn; lia|].
  rewrite <- (be_sum_shift bs (Z.of_nat (length bs)) 0 1) in IH.
  cbn [Z.add] in IH.
  replace (Z.of_nat (length bs) + 1) with (Z.of_nat (S (length bs))) in IH by lia.
  replace (0 + 1) with 1 by lia.
  rewrite shiftl_byte by lia.
  replace (8 * (Z.of_nat (S (length bs)) - 1 - 0)) with (8 * Z.of_nat (length bs)) by lia.
  replace (8 * Z.of_nat (S (length bs))) with (8 + 8 * Z.of_nat (length bs)) by lia.
  rewrite Z.pow_add_r by lia.
  pose proof (byte_val_range b). change (2 ^ 8) with 256. nia.
Qed.

Lemma unpack_bits_mod (bs : list byte) :
  Slice.len bs < 2 ^ 61 -> unpack_bits bs = big_endian bs mod 2 ^ 32.
Proof.
  intros Hlen. unfold unpack_bits, big_endian.
  rewrite unpack_loop_mod by (unfold Slice.len in *; lia).
  rewrite Z.add_0_l. reflexivity.
Qed.

(** X1: on a slice of any length [unpack] converts the big-endian value of
    the slice reduced modulo [2^32]: the accumulator is a [uint32] and
    wraps.  An empty slice gives [+0]. *)
Theorem unpack_wraps (bs : list byte) :
  Slice.len bs < 2 ^ 61 ->
  unpack bs = of_Z (big_endian bs mod 2 ^ 32) /\
  (bs = [] -> unpack bs = S754_zero false).
Proof.
  intros Hlen. split.
  - unfold unpack. rewrite unpack_bits_mod by exact Hlen. reflexivity.
  - intros ->. reflexivity.
Qed.

Lemma unpack_wraps_witness :
  unpack [Byte.x01; Byte.x00; Byte.x00; Byte.x00; Byte.x07] = of_Z 7.
Proof.
  destruct (unpack_wraps [Byte.x01; Byte.x00; Byte.x00; Byte.x00; Byte.x07]) as (H & _).
  - vm_compute. reflexivity.
  - rewrite H. reflexivity.
Defined.

(** X2: only the last four bytes of a slice count: whatever precedes them
    is shifted out of the [uint32]. *)
Theorem unpack_last_four (pre suf : list byte) :
  Slice.len suf = 4 -> Slice.len (pre ++ suf) < 2 ^ 61 ->
  unpack (pre ++ suf) = unpack suf.
Proof.
  intros H4 Hlen. unfold unpack.
  rewrite (unpack_bits_mod (pre ++ suf)) by exact Hlen.
  rewrite (unpack_bits_mod suf) by lia.
  f_equal. unfold big_endian.
  assert (Hl : Z.of_nat (length (pre ++ suf)) = Slice.len pre + Slice.len suf).
  { unfold Slice.len. rewrite length_app. lia. }
  rewrite be_sum_app, Hl.
  destruct (be_sum_high pre (Slice.len pre + Slice.len suf) 0) as (q & ->); [lia|lia|].
  replace (be_sum (Slice.len pre + Slice.len suf) (0 + Slice.len pre) suf)
    with (be_sum (Z.of_nat (length suf)) 0 suf).
  - rewrite Z.add_comm, Z.mod_add by lia. reflexivity.
  - rewrite <- (be_sum_shift suf (Z.of_nat (length suf)) 0 (Slice.len pre)).
    f_equal; unfold Slice.len; lia.
Qed.

Lemma unpack_last_four_witness :
  unpack ([Byte.xff; Byte.xee] ++ [Byte.x00; Byte.x00; Byte.x01; Byte.x02])
  = unpack [Byte.x00; Byte.x00; Byte.x01; Byte.x02].
Proof.
  apply unpack_last_four; vm_compute; reflexivity.
Defined.

(** ** Replies longer than declared *)

(** A reply that the loop receives has at least the declared length. *)
Lemma received_at_least (cmds : list command) :
  forall p i d r,
    nth_error cmds i = Some d -> nth_error (received cmds p) i = Some r ->
    respLen d <= Slice.len r <= 120.
Proof.
  induction cmds as [|c cmds IH]; intros p i d r Hd Hr.
  - destruct i; discriminate.
  - cbn [received] in Hr.
    destruct (port_write p (data c)) as [p1 [e|]]; [destruct i; discriminate|].
    destruct (readWithTimeout p1 (respLen c)) as [[p2 b] [e|]] eqn:Hread;
      [destruct i; discriminate|].
    apply readWithTimeout_ok in Hread.
    destruct Hread as (rest & cnt & el & _ & _ & Hb & Hcnt & Hrc).
    destruct i as [|i]; cbn [nth_error] in Hd, Hr.
    + injection Hd as <-. injection Hr as <-.
      rewrite Hrc. unfold Slice.len in *. rewrite length_firstn. lia.
    + eapply IH; eassumption.
Qed.

(** X3: the placement does not need replies of the exact length.  When the
    five exchanges succeed, each received reply has at least the declared
    length and at most 120 bytes, and its first [respLen] bytes are in the
    buffer at the command's offset: what a reply carries beyond its
    declared length is overwritten by the later copies or falls off the end
    of the buffer. *)
Theorem placement_of_long_replies (p p' : Port) (buffer : list byte) :
  exchanges queryStateCommand p (Slice.make 120) = Some (p', buffer, None) ->
  forall i d r k,
    nth_error queryStateCommand i = Some d ->
    nth_error (received queryStateCommand p) i = Some r ->
    0 <= k < respLen d ->
    respLen d <= Slice.len r <= 120 /\
    exists x, Slice.index buffer (offset d + k) = Some x /\ Slice.index r k = Some x.
Proof.
  intros Hex i d r k Hd Hr Hk.
  pose proof (received_at_least _ _ _ _ _ Hd Hr) as Hlen.
  split; [exact Hlen|].
  pose proof (exchanges_len _ _ _ _ _ _ Hex) as Hl. rewrite make_len in Hl by lia.
  destruct (exchanges_placement queryStateCommand 0 p (Slice.make 120) p' buffer)
    as (_ & _ & Hplace); [exact table_tiles|lia|apply make_len; lia|exact Hex|].
  specialize (Hplace i d r k Hd Hr Hk).
  exists (nth (Z.to_nat k) r Byte.x00). split.
  - rewrite index_ok.
    + rewrite Hplace. reflexivity.
    + rewrite Hl.
      destruct i as [|[|[|[|[|[|i]]]]]]; cbn in Hd; try discriminate;
        injection Hd as <-; cbn [offset respLen] in *; lia.
  - apply index_ok. lia.
Qed.

Lemma placement_of_long_replies_witness :
  exists p' buffer r,
    exchanges queryStateCommand chatty_port (Slice.make 120) = Some (p', buffer, None) /\
    nth_error (received queryStateCommand chatty_port) 0 = Some r /\
    Slice.len r = 13 /\
    Slice.index buffer 8 = Some Byte.x01 /\
    Slice.index buffer 11 = Some Byte.x22.
Proof.
  pose (res := exchanges queryStateCommand chatty_port (Slice.make 120)).
  pose (p' := match res with Some (q, _, _) => q | None => chatty_port end).
  pose (buffer := match res with Some (_, b, _) => b | None => [] end).
  pose (r := nth 0 sample_replies [] ++ [Byte.xaa; Byte.xbb]).
  assert (Hex : exchanges queryStateCommand chatty_port (Slice.make 120)
                = Some (p', buffer, None)) by (vm_compute; reflexivity).
  assert (Hr : nth_error (received queryStateCommand chatty_port) 0 = Some r)
    by (vm_compute; reflexivity).
  exists p', buffer, r. split; [exact Hex|]. split; [exact Hr|].
  split; [vm_compute; reflexivity|].
  destruct (placement_of_long_replies chatty_port p' buffer Hex 0%nat
              (mkCommand [Byte.x01; Byte.x04; Byte.x32; Byte.x00; Byte.x00;
                          Byte.x03; Byte.xbe; Byte.xb3] 11 0) r 8)
    as (_ & x & Hb & Hx).
  - reflexivity.
  - exact Hr.
  - cbn [respLen]. lia.
  - split.
    + cbn [offset] in Hb. change (0 + 8) with 8 in Hb.
      rewrite Hb, <- Hx. vm_compute. reflexivity.
    + vm_compute. reflexivity.
Defined.

(** ** What a bounded read returns *)

Lemma firstn_exact (pre post : list byte) (n : nat) :
  length pre = n -> firstn n (pre ++ post) = pre.
Proof.
  intros <-. induction pre as [|x pre IH]; cbn; [reflexivity|].
  f_equal. exact IH.
Qed.

Lemma skipn_past (pre post : list byte) (n k : nat) :
  length pre = n -> skipn (n + k) (pre ++ post) = skipn k post.
Proof.
  intros <-. induction pre as [|x pre IH]; cbn; [reflexivity|exact IH].
Qed.

Lemma store_store (l xs ys : list byte) (off : Z) :
  0 <= off -> off + Slice.len xs + Slice.len ys <= Slice.len l ->
  Slice.store (Slice.store l off xs) (off + Slice.len xs) ys
  = Slice.store l off (xs ++ ys).
Proof.
  unfold Slice.store, Slice.len. intros H1 H2.
  rewrite length_app.
  assert (Hpre : length (firstn (Z.to_nat off) l ++ xs)
                 = Z.to_nat (off + Z.of_nat (length xs)))
    by (rewrite length_app, length_firstn; lia).
  rewrite (app_assoc (firstn (Z.to_nat off) l) xs).
  rewrite (firstn_exact _ _ _ Hpre).
  replace (Z.to_nat (off + Z.of_nat (length xs) + Z.of_nat (length ys)))
    with (Z.to_nat (off + Z.of_nat (length xs)) + length ys)%nat by lia.
  rewrite (skipn_past _ _ _ _ Hpre), skipn_skipn.
  rewrite <- !app_assoc. do 3 f_equal. f_equal. lia.
Qed.

Lemma store_nil (l : list byte) (off : Z) :
  0 <= off -> Slice.store l off [] = l.
Proof.
  intros H. unfold Slice.store, Slice.len. cbn [length app].
  rewrite Z.add_0_r. apply firstn_skipn.
Qed.

(** The loop moves bytes from the port to the buffer and nothing else: what
    the port had to deliver is what the loop has stored, followed by what
    the port still has to deliver. *)
Lemma read_loop_stream (evs : list read_event) :
  forall buf min n err elapsed rest buf' n' err' elapsed',
    0 <= n <= Slice.len buf ->
    read_loop evs buf min n err elapsed = Returned rest buf' n' err' elapsed' ->
    exists got,
      pending evs = got ++ pending rest /\
      n' = n + Slice.len got /\ n' <= Slice.len buf /\
      buf' = Slice.store buf n got.
Proof.
  induction evs as [|ev evs IH]; intros buf min n err elapsed rest buf' n' err' elapsed' Hn;
    cbn [read_loop].
  - destruct ((n <? min) && match err with None => true | Some _ => false end);
      [discriminate|].
    intros [= <- <- <- <- <-]. exists [].
    split; [reflexivity|]. split; [cbn; lia|]. split; [lia|].
    symmetry. apply store_nil. lia.
  - destruct ((n <? min) && match err with None => true | Some _ => false end).
    2:{ intros [= <- <- <- <- <-]. exists [].
        split; [reflexivity|]. split; [cbn; lia|]. split; [lia|].
        symmetry. apply store_nil. lia. }
    set (room := Z.to_nat (Slice.len buf - n)).
    assert (Hgot : Slice.len (firstn room (bytes ev)) <= Slice.len buf - n).
    { unfold room, Slice.len in *. rewrite length_firstn. lia. }
    pose proof (len_nonneg (firstn room (bytes ev))) as Hgot0.
    pose proof (firstn_skipn room (bytes ev)) as Hsplit.
    destruct (skipn room (bytes ev)) as [|x left] eqn:Hleft.
    + rewrite app_nil_r in Hsplit. rewrite Hsplit in *.
      intros Hr. apply IH in Hr; [|rewrite store_len; lia].
      destruct Hr as (got & Hp & Hn' & Hle & Hbuf).
      rewrite store_len in Hle by lia.
      exists (bytes ev ++ got). unfold pending in *. cbn [map concat].
      rewrite Hp, <- app_assoc. split; [reflexivity|].
      assert (Hla : Slice.len (bytes ev ++ got) = Slice.len (bytes ev) + Slice.len got)
        by (unfold Slice.len; rewrite length_app; lia).
      split; [lia|]. split; [lia|].
      rewrite Hbuf. apply store_store; lia.
    + intros [= <- <- <- <- <-].
      exists (firstn room (bytes ev)). unfold pending. cbn [map concat bytes].
      rewrite app_assoc, Hsplit. repeat split; lia.
Qed.

Lemma skipn_repeat_zero (k n : nat) :
  skipn k (repeat Byte.x00 n) = repeat Byte.x00 (n - k).
Proof.
  revert k. induction n as [|n IH]; intros [|k]; cbn; try reflexivity. apply IH.
Qed.

Lemma ReadAtLeast_stream (evs rest : list read_event) (buf buf' : list byte)
    (min n : Z) (err : option error) (elapsed : Z) :
  ReadAtLeast evs buf min = Returned rest buf' n err elapsed ->
  exists got,
    pending evs = got ++ pending rest /\ n = Slice.len got /\
    Slice.len got <= Slice.len buf /\ buf' = Slice.store buf 0 got.
Proof.
  unfold ReadAtLeast. pose proof (len_nonneg buf) as Hb.
  destruct (Slice.len buf <? min).
  - intros [= <- <- <- <- <-]. exists [].
    split; [reflexivity|]. split; [reflexivity|]. split; [cbn; lia|].
    symmetry. apply store_nil. lia.
  - destruct (read_loop evs buf min 0 None 0) as [|r b c e el] eqn:Hloop; [discriminate|].
    intros [= <- <- <- <- <-].
    apply read_loop_stream in Hloop; [|lia].
    destruct Hloop as (got & Hp & Hn & Hle & Hbuf).
    exists got. repeat split; try assumption; lia.
Qed.

Lemma store_make_zero (got : list byte) :
  Slice.len got <= 120 ->
  Slice.store (Slice.make 120) 0 got
  = got ++ repeat Byte.x00 (Z.to_nat (120 - Slice.len got)).
Proof.
  intros Hle. unfold Slice.store, Slice.make.
  cbn [Z.to_nat firstn app]. rewrite skipn_repeat_zero.
  do 2 f_equal. unfold Slice.len in *. lia.
Qed.

(** X4: a bounded read that succeeds returns the next bytes of the port's
    stream, at least [n] and at most 120 of them, followed by zeros up to
    120 bytes, and leaves the rest of the stream in the port: no byte is
    dropped, repeated or reordered.  All the bytes read are taken from the
    port, also those beyond the [n] asked for. *)
Theorem readWithTimeout_stream (p p' : Port) (n : Z) (b : list byte) :
  readWithTimeout p n = (p', b, None) ->
  exists got,
    pending (incoming p) = got ++ pending (incoming p') /\
    n <= Slice.len got <= 120 /\
    read_count p n = Slice.len got /\
    b = got ++ repeat Byte.x00 (Z.to_nat (120 - Slice.len got)).
Proof.
  intros Hr. apply readWithTimeout_ok in Hr.
  destruct Hr as (rest & cnt & el & Hread & -> & Hb & Hcnt & Hrc).
  apply ReadAtLeast_stream in Hread.
  destruct Hread as (got & Hp & Hn & Hle & Hbuf).
  exists got. cbn [advance set_incoming incoming].
  split; [exact Hp|]. split; [lia|]. split; [lia|].
  rewrite Hbuf. apply store_make_zero. lia.
Qed.

Lemma readWithTimeout_stream_witness :
  exists p' b,
    readWithTimeout chatty_port 11 = (p', b, None) /\
    b = (nth 0 sample_replies [] ++ [Byte.xaa; Byte.xbb]) ++ repeat Byte.x00 107 /\
    pending (incoming p') = concat (skipn 1 sample_replies).
Proof.
  pose (res := readWithTimeout chatty_port 11).
  assert (Hr : readWithTimeout chatty_port 11 = (fst (fst res), snd (fst res), None))
    by (vm_compute; reflexivity).
  destruct (readWithTimeout_stream _ _ _ _ Hr) as (got & Hp & _ & _ & Hb).
  exists (fst (fst res)), (snd (fst res)).
  split; [exact Hr|]. split; vm_compute; reflexivity.
Defined.

Lemma port_write_incoming (p p' : Port) (frame : list byte) (err : option error) :
  port_write p frame = (p', err) ->
  incoming p' = incoming p /\ clock p' = clock p /\ open_err p' = open_err p /\
  closed p' = closed p.
Proof.
  unfold port_write. destruct (write_errs p); intros [= <- <-]; repeat split.
Qed.

Lemma Status_success (p p' : Port) (t : TracerStatus) :
  Status p = Some (p', t, None) ->
  open_err p = None /\
  exists q buffer,
    exchanges queryStateCommand p (Slice.make 120) = Some (q, buffer, None) /\
    p' = port_close q /\ decode (clock q) buffer = Some t.
Proof.
  unfold Status. destruct (open_err p); [discriminate|].
  destruct (exchanges queryStateCommand p (Slice.make 120)) as [[[q buffer] [e|]]|];
    try discriminate.
  destruct (decode (clock q) buffer) as [u|] eqn:Hd; [|discriminate].
  intros [= <- <-]. split; [reflexivity|]. exists q, buffer. repeat split. exact Hd.
Qed.

Lemma exchanges_stream (cmds : list command) :
  forall p buffer p' buffer',
    exchanges cmds p buffer = Some (p', buffer', None) ->
    pending (incoming p) = concat (received cmds p) ++ pending (incoming p') /\
    length (received cmds p) = length cmds.
Proof.
  induction cmds as [|c cmds IH]; intros p buffer p' buffer'; cbn [exchanges received].
  - intros [= <- <-]. split; reflexivity.
  - destruct (port_write p (data c)) as [p1 [e|]] eqn:Hw; [discriminate|].
    apply port_write_incoming in Hw. destruct Hw as (Hw & _).
    destruct (readWithTimeout p1 (respLen c)) as [[p2 b] [e|]] eqn:Hread; [discriminate|].
    destruct (Slice.copy_from buffer (offset c) b) as [buffer1|]; [|discriminate].
    intros Hex. apply IH in Hex. destruct Hex as (Hex & Hlen).
    apply readWithTimeout_ok in Hread.
    destruct Hread as (rest & cnt & el & Hread & -> & _ & Hcnt & Hrc).
    apply ReadAtLeast_stream in Hread.
    destruct Hread as (got & Hp & Hn & Hle & Hb).
    rewrite make_len in Hle by lia. rewrite store_make_zero in Hb by exact Hle.
    cbn [advance set_incoming incoming] in Hex.
    cbn [concat length]. rewrite Hlen. split; [|reflexivity].
    rewrite <- Hw, Hp, Hex, Hrc, Hn, Hb, <- app_assoc. f_equal.
    rewrite firstn_exact; [reflexivity|]. unfold Slice.len. lia.
Qed.

(** X5: when [Status] succeeds, the five replies it has received are
    consecutive pieces of the byte stream of the port, in command order:
    the stream is the replies, one after the other, followed by what the
    port still holds. *)
Theorem Status_replies_are_the_stream (p p' : Port) (t : TracerStatus) :
  Status p = Some (p', t, None) ->
  pending (incoming p)
  = concat (received queryStateCommand p) ++ pending (incoming p') /\
  length (received queryStateCommand p) = 5%nat.
Proof.
  intros Hs. apply Status_success in Hs.
  destruct Hs as (_ & q & buffer & Hex & -> & _).
  apply exchanges_stream in Hex. exact Hex.
Qed.

Lemma Status_replies_are_the_stream_witness :
  exists p' t,
    Status chatty_port = Some (p', t, None) /\
    pending (incoming chatty_port) = concat (received queryStateCommand chatty_port).
Proof.
  pose (res := Status chatty_port).
  pose (p' := match res with Some (q, _, _) => q | None => chatty_port end).
  pose (t := match res with Some (_, u, _) => u | None => zeroStatus end).
  assert (Hs : Status chatty_port = Some (p', t, None)) by (vm_compute; reflexivity).
  exists p', t. split; [exact Hs|].
  destruct (Status_replies_are_the_stream _ _ _ Hs) as (H & _).
  rewrite H. replace (pending (incoming p')) with (@nil byte) by (vm_compute; reflexivity).
  apply app_nil_r.
Defined.

(** ** Time *)

Lemma read_loop_elapsed (evs : list read_event) :
  forall buf min n err elapsed rest buf' n' err' elapsed',
    punctual evs ->
    read_loop evs buf min n err elapsed = Returned rest buf' n' err' elapsed' ->
    elapsed <= elapsed' /\ punctual rest.
Proof.
  induction evs as [|ev evs IH]; intros buf min n err elapsed rest buf' n' err' elapsed' Hp;
    cbn [read_loop].
  - destruct ((n <? min) && match err with None => true | Some _ => false end);
      [discriminate|].
    intros [= <- <- <- <- <-]. split; [lia|exact Hp].
  - destruct ((n <? min) && match err with None => true | Some _ => false end).
    2:{ intros [= <- <- <- <- <-]. split; [lia|exact Hp]. }
    inversion Hp as [|? ? Hev Hevs]; subst.
    destruct (skipn (Z.to_nat (Slice.len buf - n)) (bytes ev)) as [|x left].
    + intros Hr. apply IH in Hr; [|exact Hevs]. destruct Hr as (H1 & H2).
      split; [lia|exact H2].
    + intros [= <- <- <- <- <-]. split; [lia|].
      apply Forall_cons; [cbn; lia|exact Hevs].
Qed.

(** A bounded read never waits longer than the timer, and a port whose
    reads take no negative time never sees the clock go back. *)
Lemma readWithTimeout_clock (p p' : Port) (n : Z) (b : list byte) (err : option error) :
  readWithTimeout p n = (p', b, err) ->
  clock p' <= clock p + timeout_ns /\
  (punctual (incoming p) -> clock p <= clock p' /\ punctual (incoming p')).
Proof.
  unfold readWithTimeout.
  destruct (ReadAtLeast (incoming p) (Slice.make 120) n) as [|rest buf cnt e el] eqn:Hr.
  - intros [= <- <- <-]. cbn. unfold timeout_ns. split; [lia|].
    intros _. split; [lia|apply Forall_nil].
  - assert (Hel : punctual (incoming p) -> 0 <= el /\ punctual rest).
    { intros Hp. unfold ReadAtLeast in Hr.
      destruct (Slice.len (Slice.make 120) <? n).
      - injection Hr as <- <- <- <- <-. split; [lia|exact Hp].
      - destruct (read_loop (incoming p) (Slice.make 120) n 0 None 0)
          as [|r b0 c e0 el0] eqn:Hloop; [discriminate|].
        injection Hr as <- <- <- <- <-.
        eapply read_loop_elapsed; eassumption. }
    destruct (Z.ltb_spec el timeout_ns) as [Hlt|Hge]; cbn [orb].
    + intros [= <- <- <-]. cbn. split; [lia|]. intros Hp.
      destruct (Hel Hp). split; [lia|assumption].
    + destruct (Z.eqb_spec el timeout_ns) as [Heq|Hne]; cbn [andb].
      * destruct (tie_read_first p); intros [= <- <- <-]; cbn;
          (split; [lia|]); intros Hp; destruct (Hel Hp);
          (split; [unfold timeout_ns in *; lia|assumption]).
      * intros [= <- <- <-]. cbn. split; [lia|]. intros Hp.
        destruct (Hel Hp). split; [unfold timeout_ns; lia|assumption].
Qed.

Lemma exchanges_clock (cmds : list command) :
  forall p buffer p' buffer' err,
    exchanges cmds p buffer = Some (p', buffer', err) ->
    clock p' <= clock p + Z.of_nat (length cmds) * timeout_ns /\
    (punctual (incoming p) -> clock p <= clock p').
Proof.
  induction cmds as [|c cmds IH]; intros p buffer p' buffer' err; cbn [exchanges].
  - intros [= <- <- <-]. cbn. split; lia.
  - destruct (port_write p (data c)) as [p1 werr] eqn:Hw.
    apply port_write_incoming in Hw. destruct Hw as (Hi & Hc & _).
    assert (Hpos : 0 <= Z.of_nat (length cmds) * timeout_ns)
      by (unfold timeout_ns; lia).
    cbn [length]. rewrite Nat2Z.inj_succ, Z.mul_succ_l.
    destruct werr as [e|].
    { intros [= <- <- <-]. unfold timeout_ns in *. split; lia. }
    destruct (readWithTimeout p1 (respLen c)) as [[p2 b] rerr] eqn:Hr.
    apply readWithTimeout_clock in Hr. destruct Hr as (Hup & Hdown).
    destruct rerr as [e|].
    { intros [= <- <- <-]. split; [lia|]. intros Hp. rewrite <- Hi in Hp.
      destruct (Hdown Hp). lia. }
    destruct (Slice.copy_from buffer (offset c) b) as [buffer1|]; [|discriminate].
    intros Hex. apply IH in Hex. destruct Hex as (Hup' & Hdown').
    split; [lia|]. intros Hp. rewrite <- Hi in Hp.
    destruct (Hdown Hp) as (H1 & H2). specialize (Hdown' H2). lia.
Qed.

(** X6: the five bounded reads of a call of [Status] wait at most ten
    seconds together, whatever the device does.  On success the timestamp
    is the clock read after the last exchange; with reads that take no
    negative time it lies between the start of the call and ten seconds
    later. *)
Theorem Status_duration (p p' : Port) (t : TracerStatus) (err : option error) :
  Status p = Some (p', t, err) ->
  clock p' <= clock p + 5 * timeout_ns /\
  (err = None -> Timestamp t = Some (clock p')) /\
  (punctual (incoming p) -> clock p <= clock p').
Proof.
  unfold Status. destruct (open_err p).
  { intros [= <- <- <-]. unfold timeout_ns. repeat split; try lia. discriminate. }
  destruct (exchanges queryStateCommand p (Slice.make 120)) as [[[q buffer] oe]|] eqn:Hex;
    [|discriminate].
  pose proof (exchanges_len _ _ _ _ _ _ Hex) as Hl. rewrite make_len in Hl by lia.
  apply exchanges_clock in Hex. destruct Hex as (Hup & Hdown).
  change (Z.of_nat (length queryStateCommand)) with 5 in Hup.
  destruct oe as [e|].
  - intros [= <- <- <-]. cbn [port_close clock].
    split; [exact Hup|]. split; [discriminate|exact Hdown].
  - rewrite (decode_eq _ _ Hl). intros [= <- <- <-]. cbn [port_close clock Timestamp].
    split; [exact Hup|]. split; [reflexivity|exact Hdown].
Qed.

Lemma Status_duration_witness :
  exists p' t,
    Status sample_port = Some (p', t, None) /\
    Timestamp t = Some 18000000 /\ clock p' <= 10000000000.
Proof.
  pose (res := Status sample_port).
  pose (p' := match res with Some (q, _, _) => q | None => sample_port end).
  pose (t := match res with Some (_, u, _) => u | None => zeroStatus end).
  assert (Hs : Status sample_port = Some (p', t, None)) by (vm_compute; reflexivity).
  destruct (Status_duration _ _ _ _ Hs) as (Hup & Hts & _).
  exists p', t. split; [exact Hs|]. split.
  - rewrite (Hts eq_refl). vm_compute. reflexivity.
  - exact Hup.
Defined.

(** ** The bounds of a bounded read *)

(** X7: [readWithTimeout] reads into a buffer of 120 bytes.  Asked for more
    than 120 bytes it fails at once with [io.ErrShortBuffer]; asked for no
    byte at all it succeeds at once with the zeroed buffer.  In both cases
    nothing is read from the port and no time passes. *)
Theorem readWithTimeout_bounds (p : Port) (n : Z) :
  (120 < n ->
   exists p', readWithTimeout p n = (p', Slice.make 120, Some ErrShortBuffer) /\
              incoming p' = incoming p /\ clock p' = clock p) /\
  (n <= 0 ->
   exists p', readWithTimeout p n = (p', Slice.make 120, None) /\
              incoming p' = incoming p /\ clock p' = clock p).
Proof.
  split; intros Hn; unfold readWithTimeout, ReadAtLeast.
  - rewrite make_len by lia.
    destruct (Z.ltb_spec 120 n); [|lia].
    change (0 <? timeout_ns) with true. cbn [orb].
    eexists. split; [reflexivity|]. cbn. split; [reflexivity|lia].
  - rewrite make_len by lia.
    destruct (Z.ltb_spec 120 n); [lia|].
    assert (Hloop : read_loop (incoming p) (Slice.make 120) n 0 None 0
                    = Returned (incoming p) (Slice.make 120) 0 None 0).
    { destruct (incoming p); cbn [read_loop];
        destruct (Z.ltb_spec 0 n); try lia; reflexivity. }
    rewrite Hloop. destruct (Z.leb_spec n 0); [|lia].
    change (0 <? timeout_ns) with true. cbn [orb].
    eexists. split; [reflexivity|]. cbn. split; [reflexivity|lia].
Qed.

Lemma readWithTimeout_bounds_witness :
  exists p', readWithTimeout sample_port 121 = (p', Slice.make 120, Some ErrShortBuffer) /\
             incoming p' = incoming sample_port.
Proof.
  destruct (readWithTimeout_bounds sample_port 121) as (H & _).
  destruct H as (p' & Hr & Hi & _); [lia|].
  exists p'. split; assumption.
Defined.

(** ** The port after a call *)

(** A call of [Status] that has opened the port leaves it closed, on
    success and on every error; a call that cannot open it returns the
    error of the opening with the zero snapshot and does nothing to the
    port: no frame is written, nothing is read and it is not closed. *)
Lemma Status_releases_port (p p' : Port) (t : TracerStatus) (err : option error) :
  Status p = Some (p', t, err) ->
  (open_err p = None -> closed p' = true) /\
  (forall e, open_err p = Some e -> p' = p /\ t = zeroStatus /\ err = Some e).
Proof.
  unfold Status. destruct (open_err p) as [e0|].
  - intros [= <- <- <-]. split; [discriminate|].
    intros e [= <-]. repeat split.
  - destruct (exchanges queryStateCommand p (Slice.make 120)) as [[[q buffer] [e|]]|];
      try discriminate.
    + intros [= <- <- <-]. split; [reflexivity|discriminate].
    + destruct (decode (clock q) buffer); [|discriminate].
      intros [= <- <- <-]. split; [reflexivity|discriminate].
Qed.

(** ** Requests and replies in step *)

Lemma exchanges_lockstep (cmds : list command) :
  forall p buffer p' buffer' err,
    exchanges cmds p buffer = Some (p', buffer', err) ->
    (length (received cmds p) + failed err <= length cmds)%nat /\
    written p' = written p
                 ++ map data (firstn (length (received cmds p) + failed err) cmds).
Proof.
  induction cmds as [|c cmds IH]; intros p buffer p' buffer' err;
    cbn [exchanges received].
  - intros [= <- <- <-]. cbn. rewrite app_nil_r. split; [lia|reflexivity].
  - destruct (port_write p (data c)) as [p1 werr] eqn:Hw.
    apply port_write_written in Hw.
    destruct werr as [e|].
    { intros [= <- <- <-]. cbn. split; [lia|exact Hw]. }
    destruct (readWithTimeout p1 (respLen c)) as [[p2 b] rerr] eqn:Hr.
    apply readWithTimeout_written in Hr. destruct Hr as (Hr & _).
    destruct rerr as [e|].
    { intros [= <- <- <-]. cbn. split; [lia|congruence]. }
    destruct (Slice.copy_from buffer (offset c) b) as [buffer1|]; [|discriminate].
    intros Hex. apply IH in Hex. destruct Hex as (Hle & Hwr).
    cbn [length Nat.add firstn map]. split; [lia|].
    rewrite Hwr, Hr, Hw, <- app_assoc. reflexivity.
Qed.

(** X8: requests and replies go in step.  At the end of any call of
    [Status] that has opened the port, the frames written are those of the
    commands whose replies have been received, in table order, and one
    more, that of the command that failed, when the call returns an error:
    no frame is written before the reply to the previous one is in. *)
Theorem Status_lockstep (p p' : Port) (t : TracerStatus) (err : option error) :
  open_err p = None ->
  Status p = Some (p', t, err) ->
  (length (received queryStateCommand p) + failed err <= 5)%nat /\
  written p' = written p
               ++ map data (firstn (length (received queryStateCommand p) + failed err)
                                   queryStateCommand).
Proof.
  intros Ho. unfold Status. rewrite Ho.
  destruct (exchanges queryStateCommand p (Slice.make 120)) as [[[q buffer] oe]|] eqn:Hex;
    [|discriminate].
  apply exchanges_lockstep in Hex.
  destruct oe as [e|].
  - intros [= <- <- <-]. exact Hex.
  - destruct (decode (clock q) buffer); [|discriminate].
    intros [= <- <- <-]. exact Hex.
Qed.

Lemma Status_lockstep_witness :
  exists p',
    Status silent_port = Some (p', zeroStatus, Some timed_out) /\
    length (received queryStateCommand silent_port) = 1%nat /\
    length (written p') = 2%nat.
Proof.
  pose (res := Status silent_port).
  pose (p' := match res with Some (q, _, _) => q | None => silent_port end).
  assert (Hs : Status silent_port = Some (p', zeroStatus, Some timed_out))
    by (vm_compute; reflexivity).
  exists p'. split; [exact Hs|].
  destruct (Status_lockstep silent_port p' _ _ eq_refl Hs) as (_ & Hw).
  split; [vm_compute; reflexivity|].
  rewrite Hw. vm_compute. reflexivity.
Defined.

(** ** Exact float32 arithmetic on small integers *)

Lemma digits2_spec (p : positive) :
  2 ^ (Z.pos (digits2_pos p) - 1) <= Z.pos p < 2 ^ Z.pos (digits2_pos p).
Proof.
  induction p as [p IH|p IH|]; cbn [digits2_pos].
  - rewrite Pos2Z.inj_succ, (Pos2Z.inj_xI p).
    replace (Z.succ (Z.pos (digits2_pos p)) - 1) with (Z.succ (Z.pos (digits2_pos p) - 1)) by lia.
    rewrite !Z.pow_succ_r by lia. lia.
  - rewrite Pos2Z.inj_succ, (Pos2Z.inj_xO p).
    replace (Z.succ (Z.pos (digits2_pos p)) - 1) with (Z.succ (Z.pos (digits2_pos p) - 1)) by lia.
    rewrite !Z.pow_succ_r by lia. lia.
  - vm_compute. split; [discriminate|reflexivity].
Qed.

Lemma digits2_unique (p : positive) (d : Z) :
  2 ^ (d - 1) <= Z.pos p < 2 ^ d -> Z.pos (digits2_pos p) = d.
Proof.
  intros (Hlo & Hhi). pose proof (digits2_spec p) as (Slo & Shi).
  assert (Hd : 0 < d).
  { destruct (Z.ltb_spec 0 d) as [|Hd]; [assumption|].
    destruct (Z.eq_dec d 0) as [->|]; [cbn in Hhi; lia|].
    rewrite Z.pow_neg_r in Hhi by lia. lia. }
  destruct (Z.lt_trichotomy (Z.pos (digits2_pos p)) d) as [Hlt|[Heq|Hgt]];
    [|exact Heq|].
  - assert (2 ^ Z.pos (digits2_pos p) <= 2 ^ (d - 1)) by (apply Z.pow_le_mono_r; lia).
    lia.
  - assert (2 ^ d <= 2 ^ (Z.pos (digits2_pos p) - 1)) by (apply Z.pow_le_mono_r; lia).
    lia.
Qed.

(** Rounding a mantissa of at most 24 bits only normalises it. *)
Lemma binary_round_small (s : bool) (p : positive) (e : Z) :
  Z.pos (digits2_pos p) <= 24 ->
  -149 <= e + Z.pos (digits2_pos p) - 24 <= 104 ->
  exists m,
    binary_round prec emax s p e
    = S754_finite s m (e + Z.pos (digits2_pos p) - 24) /\
    Z.pos m = Z.pos p * 2 ^ (24 - Z.pos (digits2_pos p)) /\
    Z.pos (digits2_pos m) = 24.
Proof.
  intros Hd He. unfold binary_round, shl_align.
  assert (Hf : fexp prec emax (Z.pos (digits2_pos p) + e)
               = e + Z.pos (digits2_pos p) - 24).
  { unfold fexp, emin, prec, emax. lia. }
  rewrite Hf. clear Hf.
  destruct (e + Z.pos (digits2_pos p) - 24 - e) as [|k|k] eqn:Hk; try lia.
  - exists p. replace (e + Z.pos (digits2_pos p) - 24) with e by lia.
    split; [apply round_aux_exact; lia|].
    replace (24 - Z.pos (digits2_pos p)) with 0 by lia. cbn [Z.pow]. lia.
  - exists (Pos.iter xO p k).
    assert (Hdig : Z.pos (digits2_pos (Pos.iter xO p k)) = 24)
      by (rewrite digits2_iter_xO; lia).
    split; [apply round_aux_exact; [exact Hdig|lia]|].
    split; [|exact Hdig].
    rewrite iter_xO_value. do 2 f_equal. lia.
Qed.

(** The conversion of an integer of at most 24 bits, of either sign. *)
Lemma of_Z_small (z : Z) :
  0 < Z.abs z < 2 ^ 24 ->
  exists m d,
    of_Z z = S754_finite (z <? 0) m (d - 24) /\
    1 <= d <= 24 /\ 2 ^ (d - 1) <= Z.abs z < 2 ^ d /\
    Z.pos m = Z.abs z * 2 ^ (24 - d).
Proof.
  intros Hz. unfold of_Z, binary_normalize.
  destruct z as [|p|p]; cbn [Z.abs] in *; try lia.
  - assert (Hd : Z.pos (digits2_pos p) <= 24) by (apply digits2_bound; lia).
    destruct (binary_round_small false p 0 Hd) as (m & Hm & Hv & _); [lia|].
    exists m, (Z.pos (digits2_pos p)).
    rewrite Hm. split; [reflexivity|]. split; [lia|].
    split; [apply digits2_spec|exact Hv].
  - assert (Hd : Z.pos (digits2_pos p) <= 24) by (apply digits2_bound; lia).
    destruct (binary_round_small true p 0 Hd) as (m & Hm & Hv & _); [lia|].
    exists m, (Z.pos (digits2_pos p)).
    rewrite Hm. split; [reflexivity|]. split; [lia|].
    split; [apply digits2_spec|exact Hv].
Qed.

Lemma pow2_digits (z d : Z) (lo hi : Z) :
  2 ^ (d - 1) <= z < 2 ^ d -> 2 ^ lo <= z < 2 ^ hi -> 0 <= lo -> lo < d <= hi.
Proof.
  intros (H1 & H2) (H3 & H4) Hlo.
  assert (Hz : 0 < z) by (pose proof (Z.pow_pos_nonneg 2 lo); lia).
  assert (Hd : 0 <= d).
  { destruct (Z.leb_spec 0 d); [assumption|]. rewrite Z.pow_neg_r in H2 by lia. lia. }
  split.
  - destruct (Z.ltb_spec lo d); [assumption|].
    assert (2 ^ d <= 2 ^ lo) by (apply Z.pow_le_mono_r; lia). lia.
  - destruct (Z.leb_spec d hi) as [|Hgt]; [assumption|].
    assert (Hhi : 0 <= hi).
    { destruct (Z.leb_spec 0 hi); [assumption|]. rewrite Z.pow_neg_r in H4 by lia. lia. }
    assert (2 ^ hi <= 2 ^ (d - 1)) by (apply Z.pow_le_mono_r; lia). lia.
Qed.

(** Comparison of two converted integers is comparison of the integers. *)
Lemma gtb_of_Z (a b : Z) :
  0 <= a < 2 ^ 24 -> 0 <= b < 2 ^ 24 -> gtb (of_Z a) (of_Z b) = (b <? a).
Proof.
  intros Ha Hb. unfold gtb, SFltb.
  destruct (Z.eq_dec a 0) as [->|Ha0]; destruct (Z.eq_dec b 0) as [->|Hb0].
  - reflexivity.
  - destruct (of_Z_small b) as (mb & db & -> & _); [lia|].
    destruct (Z.ltb_spec b 0); [lia|]. cbn [SFcompare of_Z binary_normalize].
    destruct (Z.ltb_spec b 0); [lia|reflexivity].
  - destruct (of_Z_small a) as (ma & da & -> & _); [lia|].
    destruct (Z.ltb_spec a 0); [lia|]. cbn [SFcompare of_Z binary_normalize].
    destruct (Z.ltb_spec 0 a); [reflexivity|lia].
  - destruct (of_Z_small a) as (ma & da & -> & Hda & Hra & Hma); [lia|].
    destruct (of_Z_small b) as (mb & db & -> & Hdb & Hrb & Hmb); [lia|].
    rewrite Z.abs_eq in * by lia.
    destruct (Z.ltb_spec a 0); [lia|]. destruct (Z.ltb_spec b 0); [lia|].
    cbn [SFcompare].
    destruct (Z.compare_spec (db - 24) (da - 24)) as [He|He|He].
    + assert (db = da) by lia. subst db.
      rewrite Pos.compare_cont_spec. cbn [Pos.switch_Eq].
      assert (Hp : 0 < 2 ^ (24 - da)) by (apply Z.pow_pos_nonneg; lia).
      destruct (Pos.compare_spec mb ma) as [Hc|Hc|Hc].
      * subst mb. destruct (Z.ltb_spec b a); [nia|reflexivity].
      * apply Pos2Z.pos_lt_pos in Hc. destruct (Z.ltb_spec b a); [reflexivity|nia].
      * apply Pos2Z.pos_lt_pos in Hc. destruct (Z.ltb_spec b a); [nia|reflexivity].
    + assert (2 ^ db <= 2 ^ (da - 1)) by (apply Z.pow_le_mono_r; lia).
      destruct (Z.ltb_spec b a); [reflexivity|lia].
    + assert (2 ^ da <= 2 ^ (db - 1)) by (apply Z.pow_le_mono_r; lia).
      destruct (Z.ltb_spec b a); [lia|reflexivity].
Qed.

Lemma finite_eq (s : bool) (m m' : positive) (e e' : Z) :
  Z.pos m = Z.pos m' -> e = e' -> S754_finite s m e = S754_finite s m' e'.
Proof. intros Hm ->. apply Pos2Z.inj in Hm. subst. reflexivity. Qed.

(** Taking 65536 from a converted 16-bit value of more than 32768 is exact:
    the difference is the float32 of the integer difference. *)
Lemma sub_65536 (raw : Z) :
  32768 < raw < 65536 -> sub (of_Z raw) (of_Z 65536) = of_Z (raw - 65536).
Proof.
  intros Hraw.
  destruct (of_Z_small raw) as (m & d & -> & Hd & Hr & Hm); [lia|].
  rewrite Z.abs_eq in * by lia.
  assert (d = 16) as ->.
  { pose proof (pow2_digits raw d 15 16 Hr). change (2 ^ 15) with 32768 in *.
    change (2 ^ 16) with 65536 in *. lia. }
  destruct (Z.ltb_spec raw 0); [lia|].
  change (16 - 24) with (-8). change (2 ^ (24 - 16)) with 256 in Hm.
  assert (Hs : sub (S754_finite false m (-8)) (of_Z 65536)
               = binary_normalize prec emax (Z.pos m - 16777216) (-8) false)
    by reflexivity.
  rewrite Hs. clear Hs.
  destruct (Z.pos m - 16777216) as [|q|q] eqn:Hq; try lia.
  destruct (of_Z_small (raw - 65536)) as (m2 & d2 & -> & Hd2 & Hr2 & Hm2); [lia|].
  rewrite Z.abs_neq in * by lia.
  destruct (Z.ltb_spec (raw - 65536) 0); [|lia].
  assert (Hd2' : d2 <= 15).
  { pose proof (pow2_digits (- (raw - 65536)) d2 0 15 Hr2).
    change (2 ^ 0) with 1 in *. change (2 ^ 15) with 32768 in *. lia. }
  assert (Hdq : Z.pos (digits2_pos q) = d2 + 8).
  { apply digits2_unique.
    replace (d2 + 8 - 1) with (d2 - 1 + 8) by lia.
    rewrite !Z.pow_add_r by lia. change (2 ^ 8) with 256.
    assert (Z.pos q = - (raw - 65536) * 256) by lia. nia. }
  cbn [binary_normalize].
  destruct (binary_round_small true q (-8)) as (mq & -> & Hmq & _); [lia|lia|].
  apply finite_eq; [|lia].
  rewrite Hmq, Hm2, Hdq.
  replace (24 - d2) with (8 + (24 - (d2 + 8))) by lia.
  rewrite Z.pow_add_r by lia. change (2 ^ 8) with 256. lia.
Qed.

Lemma of_Z_represents (z : Z) : Z.abs z < 2 ^ 24 -> represents (of_Z z) z.
Proof.
  intros Hz. destruct (Z.eq_dec z 0) as [->|Hz0]; [compute; reflexivity|].
  destruct (of_Z_small z) as (m & d & -> & Hd & Hr & Hm); [lia|].
  unfold represents, to_Q.
  assert (Hq : (inject_Z (2 ^ (24 - d)) * Qpower 2 (d - 24) == 1)%Q).
  { replace (d - 24) with (- (24 - d)) by lia.
    rewrite Qpower_opp, <- (Zpower_Qpower 2 (24 - d)) by lia.
    apply Qmult_inv_r. intros H. unfold Qeq, inject_Z in H. cbn [Qnum Qden] in H.
    assert (0 < 2 ^ (24 - d)) by (apply Z.pow_pos_nonneg; lia). lia. }
  assert (Hv : (inject_Z (Z.pos m) * Qpower 2 (d - 24) == inject_Z (Z.abs z))%Q).
  { rewrite Hm, inject_Z_mult, <- Qmult_assoc, Hq. apply Qmult_1_r. }
  destruct (Z.ltb_spec z 0).
  - rewrite Hv, Z.abs_neq by lia. rewrite inject_Z_opp. apply Qopp_involutive.
  - rewrite Hv, Z.abs_eq by lia. reflexivity.
Qed.

Lemma window_len (l : list byte) (lo hi : Z) :
  0 <= lo <= hi -> hi <= Slice.len l -> Slice.len (Slice.window l lo hi) = hi - lo.
Proof.
  intros H1 H2. unfold Slice.window, Slice.len in *.
  rewrite length_firstn, length_skipn. lia.
Qed.

(** The correction of lines 141 to 143 on the two bytes of battery current
    loses nothing. *)
Lemma sign_corrected_exact (buffer : list byte) :
  Slice.len buffer = 120 ->
  0 <= raw_at buffer 73 75 < 65536 /\
  -32767 <= signed_at_73 buffer <= 32768 /\
  sign_corrected (unpack (Slice.window buffer 73 75)) = of_Z (signed_at_73 buffer).
Proof.
  intros H. unfold signed_at_73, raw_at.
  pose proof (window_len buffer 73 75) as Hl.
  set (s := Slice.window buffer 73 75) in *.
  assert (Hlen : Slice.len s = 2) by lia.
  pose proof (big_endian_bound s) as Hb. rewrite Hlen in Hb.
  change (2 ^ (8 * 2)) with 65536 in Hb.
  split; [exact Hb|].
  split; [destruct (Z.ltb_spec 32768 (big_endian s)); lia|].
  unfold sign_corrected, unpack.
  rewrite unpack_bits_big_endian by lia.
  rewrite gtb_of_Z by (change (2 ^ 24) with 16777216; lia).
  destruct (Z.ltb_spec 32768 (big_endian s)); [|reflexivity].
  apply sub_65536. lia.
Qed.

(** X9: over all buffers, battery current is the float32 division by 100
    of an exact integer: the raw big-endian value of bytes 73 and 74 when
    it is at most 32768, and the raw value less 65536 when it is more.
    The comparison and the subtraction of lines 141 to 143 lose nothing;
    the corrected value lies between -32767 and 32768. *)
Theorem battery_current_signed (now : Z) (buffer : list byte) :
  Slice.len buffer = 120 ->
  exists t s,
    decode now buffer = Some t /\ Slice.slice buffer 73 75 = Some s /\
    let raw := big_endian s in
    let signed := if 32768 <? raw then raw - 65536 else raw in
    0 <= raw < 65536 /\ -32767 <= signed <= 32768 /\
    sign_corrected (unpack s) = of_Z signed /\
    represents (sign_corrected (unpack s)) signed /\
    BatteryCurrent t = div (of_Z signed) (of_Z 100).
Proof.
  intros H. eexists. exists (Slice.window buffer 73 75).
  split; [apply decode_eq; exact H|].
  split; [apply slice_ok; lia|].
  cbn [BatteryCurrent]. cbn zeta.
  destruct (sign_corrected_exact buffer H) as (Hraw & Hsigned & Hc).
  unfold signed_at_73, raw_at in *.
  split; [exact Hraw|]. split; [exact Hsigned|]. split; [exact Hc|]. split.
  - rewrite Hc. apply of_Z_represents. change (2 ^ 24) with 16777216. lia.
  - rewrite Hc. reflexivity.
Qed.

Lemma battery_current_signed_witness :
  exists t,
    decode 0 (Slice.store (Slice.make 120) 73 [Byte.xff; Byte.x9c]) = Some t /\
    BatteryCurrent t = div (of_Z (-100)) (of_Z 100).
Proof.
  destruct (battery_current_signed 0
              (Slice.store (Slice.make 120) 73 [Byte.xff; Byte.x9c]))
    as (t & s & Hd & Hs & _ & _ & _ & _ & Hbc).
  { vm_compute. reflexivity. }
  exists t. split; [exact Hd|].
  vm_compute in Hs. injection Hs as <-. exact Hbc.
Defined.

(** ** Rounding to nearest in [binary_round_aux] *)

Lemma aux_unfold (s : bool) (mx ex : Z) (lx : location) :
  binary_round_aux prec emax s mx ex lx =
  let '(mrs, e') := shr_fexp prec emax mx ex lx in
  finish s (round_nearest_even (shr_m mrs) (loc_of_shr_record mrs)) e'.
Proof. reflexivity. Qed.

Lemma shr_fexp_24 (m : positive) (e : Z) (l : location) :
  Z.pos (digits2_pos m) = 24 -> -149 <= e ->
  shr_fexp prec emax (Z.pos m) e l = (shr_record_of_loc (Z.pos m) l, e).
Proof.
  intros Hd He. unfold shr_fexp, Zdigits2, fexp, emin, prec, emax. rewrite Hd.
  replace (Z.max (24 + e - 24) (3 - 128 - 24) - e) with 0 by lia. reflexivity.
Qed.

Lemma shr_fexp_25 (m : positive) (e : Z) (l : location) :
  Z.pos (digits2_pos m) = 25 -> -149 <= e ->
  shr_fexp prec emax (Z.pos m) e l = (shr_1 (shr_record_of_loc (Z.pos m) l), e + 1).
Proof.
  intros Hd He. unfold shr_fexp, Zdigits2, fexp, emin, prec, emax. rewrite Hd.
  replace (Z.max (25 + e - 24) (3 - 128 - 24) - e) with 1 by lia. reflexivity.
Qed.

Lemma loc_of_loc (m : Z) (l : location) :
  loc_of_shr_record (shr_record_of_loc m l) = l /\
  shr_m (shr_record_of_loc m l) = m.
Proof. destruct l as [|[]]; split; reflexivity. Qed.

(** A rounded mantissa between [2^23] and [2^24] packs without loss. *)
Lemma finish_round (s : bool) (M e : Z) :
  2 ^ 23 <= M <= 2 ^ 24 -> -149 <= e <= 103 ->
  exists m k,
    finish s M e = S754_finite s m (e + k) /\
    Z.pos (digits2_pos m) = 24 /\ 0 <= k <= 1 /\ Z.pos m * 2 ^ k = M.
Proof.
  intros HM He. change (2 ^ 23) with 8388608 in HM. change (2 ^ 24) with 16777216 in HM.
  destruct M as [|m|m]; try lia.
  destruct (Z.eq_dec (Z.pos m) 16777216) as [Heq|Hne].
  - injection Heq as ->. exists 8388608%positive, 1.
    unfold finish. rewrite shr_fexp_25 by (try reflexivity; lia).
    cbn [shr_record_of_loc shr_1 shr_m].
    destruct (Z.leb_spec (e + 1) (emax - prec)) as [|H]; [|unfold emax, prec in H; lia].
    repeat split; lia.
  - assert (Hd : Z.pos (digits2_pos m) = 24).
    { apply digits2_unique. change (2 ^ (24 - 1)) with 8388608.
      change (2 ^ 24) with 16777216. lia. }
    exists m, 0. unfold finish. rewrite shr_fexp_24 by (assumption || lia).
    cbn [shr_record_of_loc shr_m].
    destruct (Z.leb_spec e (emax - prec)) as [|H]; [|unfold emax, prec in H; lia].
    rewrite Z.add_0_r. repeat split; try lia; exact Hd.
Qed.

(** Rounding to nearest, ties to even: the mantissa moves by at most half
    a unit. *)
Lemma round_nearest_even_spec (q rem den : Z) (l : location) :
  loc_ok l rem den -> 0 <= rem < den ->
  let M := round_nearest_even q l in
  q <= M <= q + 1 /\ Z.abs (M * den - (q * den + rem)) * 2 <= den.
Proof.
  intros Hl Hrem. cbn zeta.
  assert (Hsame : Z.abs (q * den - (q * den + rem)) * 2 = 2 * rem).
  { replace (q * den - (q * den + rem)) with (- rem) by ring.
    rewrite Z.abs_neq by lia. lia. }
  assert (Hnext : Z.abs ((q + 1) * den - (q * den + rem)) * 2 = 2 * (den - rem)).
  { replace ((q + 1) * den - (q * den + rem)) with (den - rem) by ring.
    rewrite Z.abs_eq by lia. lia. }
  destruct l as [|c]; cbn [loc_ok round_nearest_even] in *.
  - split; [lia|]. rewrite Hsame. lia.
  - destruct Hl as (Hpos & ->).
    destruct (Z.compare_spec (2 * rem) den) as [Hc|Hc|Hc].
    + destruct (Z.even q).
      * split; [lia|]. rewrite Hsame. lia.
      * split; [lia|]. rewrite Hnext. lia.
    + split; [lia|]. rewrite Hsame. lia.
    + split; [lia|]. rewrite Hnext. lia.
Qed.

(** [binary_round_aux] on a quotient [q] of 24 or 25 bits with remainder
    [rem] out of [den]: the result is a normal float whose mantissa, put
    back on the scale of [q], is within half a unit in the last place of
    [q + rem/den]. *)
Lemma round_aux_nearest (s : bool) (q : positive) (e rem den : Z) (l : location) :
  loc_ok l rem den -> 0 <= rem < den ->
  2 ^ 23 <= Z.pos q < 2 ^ 25 -> -149 <= e <= 101 ->
  exists m k,
    binary_round_aux prec emax s (Z.pos q) e l = S754_finite s m (e + k) /\
    Z.pos (digits2_pos m) = 24 /\ 0 <= k <= 2 /\
    Z.abs (Z.pos m * 2 ^ k * den - (Z.pos q * den + rem)) * 2 <= den * 2 ^ k.
Proof.
  intros Hl Hrem Hq He. rewrite aux_unfold.
  change (2 ^ 23) with 8388608 in *. change (2 ^ 25) with 33554432 in *.
  destruct (Z.ltb_spec (Z.pos q) 16777216) as [Hlt|Hge].
  - assert (Hd : Z.pos (digits2_pos q) = 24).
    { apply digits2_unique. change (2 ^ (24 - 1)) with 8388608.
      change (2 ^ 24) with 16777216. lia. }
    rewrite shr_fexp_24 by (assumption || lia).
    destruct (loc_of_loc (Z.pos q) l) as (-> & ->).
    pose proof (round_nearest_even_spec (Z.pos q) rem den l Hl Hrem) as (HM & Herr).
    destruct (finish_round s (round_nearest_even (Z.pos q) l) e) as (m & k & -> & Hdm & Hk & Hv).
    { change (2 ^ 23) with 8388608. change (2 ^ 24) with 16777216. lia. }
    { lia. }
    exists m, k. split; [reflexivity|]. split; [exact Hdm|]. split; [lia|].
    rewrite Hv.
    assert (1 <= 2 ^ k) by (pose proof (Z.pow_pos_nonneg 2 k); lia). nia.
  - assert (Hd : Z.pos (digits2_pos q) = 25).
    { apply digits2_unique. change (2 ^ (25 - 1)) with 16777216.
      change (2 ^ 25) with 33554432. lia. }
    rewrite shr_fexp_25 by (assumption || lia).
    assert (Hcase : exists p rem' l',
               shr_1 (shr_record_of_loc (Z.pos q) l) = shr_record_of_loc (Z.pos p) l' /\
               loc_ok l' rem' (2 * den) /\ 0 <= rem' < 2 * den /\
               Z.pos p * (2 * den) + rem' = Z.pos q * den + rem /\
               8388608 <= Z.pos p < 16777216).
    { destruct q as [p|p|]; [| |lia].
      - exists p, (den + rem).
        destruct l as [|c]; cbn [loc_ok] in Hl.
        + exists (loc_Inexact Eq). subst rem. cbn [loc_ok].
          rewrite Z.add_0_r, Z.compare_refl.
          split; [reflexivity|]. repeat split; lia.
        + exists (loc_Inexact Gt). destruct Hl as (Hpos & _). cbn [loc_ok].
          split; [destruct c; reflexivity|].
          assert ((2 * (den + rem) ?= 2 * den) = Gt) as -> by (apply Z.compare_gt_iff; lia).
          repeat split; lia.
      - exists p, rem.
        destruct l as [|c]; cbn [loc_ok] in Hl.
        + exists loc_Exact. subst rem. cbn [loc_ok].
          split; [reflexivity|]. repeat split; lia.
        + exists (loc_Inexact Lt). destruct Hl as (Hpos & _). cbn [loc_ok].
          split; [destruct c; reflexivity|].
          assert ((2 * rem ?= 2 * den) = Lt) as -> by (apply Z.compare_lt_iff; lia).
          repeat split; lia. }
    destruct Hcase as (p & rem' & l' & -> & Hl' & Hrem' & Hsum & Hp).
    destruct (loc_of_loc (Z.pos p) l') as (-> & ->).
    pose proof (round_nearest_even_spec (Z.pos p) rem' (2 * den) l' Hl' Hrem') as (HM & Herr).
    destruct (finish_round s (round_nearest_even (Z.pos p) l') (e + 1))
      as (m & k & -> & Hdm & Hk & Hv).
    { change (2 ^ 23) with 8388608. change (2 ^ 24) with 16777216. lia. }
    { lia. }
    exists m, (k + 1). split; [f_equal; lia|]. split; [exact Hdm|]. split; [lia|].
    rewrite Z.pow_add_r by lia. change (2 ^ 1) with 2.
    rewrite <- Hsum.
    replace (Z.pos m * (2 ^ k * 2) * den) with (Z.pos m * 2 ^ k * (2 * den)) by ring.
    rewrite Hv.
    assert (1 <= 2 ^ k) by (pose proof (Z.pow_pos_nonneg 2 k); lia). nia.
Qed.

(** ** Division by 100 *)

Lemma of_Z_100 : of_Z 100 = S754_finite false 13107200 (-17).
Proof. reflexivity. Qed.

Lemma of_Z_mantissa (z : Z) :
  0 < Z.abs z < 2 ^ 24 ->
  exists m d,
    of_Z z = S754_finite (z <? 0) m (d - 24) /\ 1 <= d <= 24 /\
    Z.pos m = Z.abs z * 2 ^ (24 - d) /\ Z.pos (digits2_pos m) = 24.
Proof.
  intros Hz. destruct (of_Z_small z Hz) as (m & d & Hm & Hd & Hr & Hv).
  exists m, d. repeat split; try assumption; try lia.
  apply digits2_unique. rewrite Hv.
  assert (Hp : 0 < 2 ^ (24 - d)) by (apply Z.pow_pos_nonneg; lia).
  replace (2 ^ (24 - 1)) with (2 ^ (d - 1) * 2 ^ (24 - d))
    by (rewrite <- Z.pow_add_r by lia; f_equal; lia).
  replace (2 ^ 24) with (2 ^ d * 2 ^ (24 - d))
    by (rewrite <- Z.pow_add_r by lia; f_equal; lia).
  nia.
Qed.

(** The core of the division of a normal float by 100: the quotient and
    remainder of the mantissa, shifted by 24 bits, by the mantissa of 100. *)
Lemma div_core_100 (m1 : positive) (e1 : Z) :
  Z.pos (digits2_pos m1) = 24 -> -23 <= e1 <= 0 ->
  SFdiv_core_binary prec emax (Z.pos m1) e1 13107200 (-17)
  = (let '(q, r) := Z.div_eucl (Z.pos m1 * 2 ^ 24) 13107200 in
     (q, e1 - 7,
      if r =? 0 then loc_Exact else loc_Inexact (2 * r ?= 13107200))).
Proof.
  intros Hd He. unfold SFdiv_core_binary. cbv zeta.
  change (Zdigits2 13107200) with 24. cbn [Zdigits2]. rewrite Hd.
  assert (Hmin : Z.min (fexp prec emax (24 + e1 - (24 + -17))) (e1 - -17) = e1 - 7).
  { unfold fexp, emin, prec, emax. lia. }
  rewrite Hmin.
  replace (e1 - -17 - (e1 - 7)) with 24 by lia.
  rewrite Z.shiftl_mul_pow2 by lia.
  destruct (Z.div_eucl (Z.pos m1 * 2 ^ 24) 13107200) as (q, r).
  reflexivity.
Qed.

Lemma Qpower_2_neg (e : Z) :
  e < 0 -> (Qpower 2 e == 1 # Z.to_pos (2 ^ (- e)))%Q.
Proof.
  intros He. replace e with (- (- e)) at 1 by lia.
  rewrite Qpower_opp, <- (Zpower_Qpower 2 (- e)) by lia.
  assert (Hp : 0 < 2 ^ (- e)) by (apply Z.pow_pos_nonneg; lia).
  destruct (2 ^ (- e)) as [|p|p]; try lia. reflexivity.
Qed.

(** From integers to [nearest]: a 24-bit mantissa [m] at a negative
    exponent [e] is within half a unit in the last place of [z/100] when
    [|100 m - z 2^(-e)|] is at most 50. *)
Lemma nearest_intro (s : bool) (m : positive) (e z : Z) :
  Z.pos (digits2_pos m) = 24 -> -149 <= e < 0 ->
  Z.abs (100 * Z.pos m - z * 2 ^ (- e)) * 2 <= 100 ->
  nearest ((if s then - z else z) # 100) (S754_finite s m e).
Proof.
  intros Hd He Hz. unfold nearest.
  split; [exact Hd|]. split.
  { unfold valid_binary, bounded, canonical_mantissa, fexp, emin, prec, emax.
    rewrite Hd. apply andb_true_iff. split; [apply Z.eqb_eq|apply Z.leb_le]; lia. }
  unfold to_Q.
  assert (Hp : 0 < 2 ^ (- e)) by (apply Z.pow_pos_nonneg; lia).
  destruct s; cbv iota; rewrite (Qpower_2_neg e) by lia;
    set (P := Z.to_pos (2 ^ (- e)));
    assert (HP : Z.pos P = 2 ^ (- e)) by (unfold P; rewrite Z2Pos.id; lia);
    rewrite <- HP in Hz;
    unfold Qle, Qabs, Qminus, Qplus, Qopp, Qmult, inject_Z; cbn [Qnum Qden];
    rewrite !Pos2Z.inj_mul.
  - replace (- (Z.pos m * 1) * 100 + - - z * (1 * Z.pos P))
      with (- (100 * Z.pos m - z * Z.pos P)) by ring.
    rewrite Z.abs_opp.
    revert Hz. generalize (Z.abs (100 * Z.pos m - z * Z.pos P)). intros A HA.
    change (Z.pos 1) with 1. change (Z.pos 100) with 100. nia.
  - replace (Z.pos m * 1 * 100 + - z * (1 * Z.pos P))
      with (100 * Z.pos m - z * Z.pos P) by ring.
    revert Hz. generalize (Z.abs (100 * Z.pos m - z * Z.pos P)). intros A HA.
    change (Z.pos 1) with 1. change (Z.pos 100) with 100. nia.
Qed.

(** Dividing the float32 of an integer of at most 24 bits by 100: the
    result is a normal float [m * 2^e] with [e < 0] and [100 m] within 50 of
    [|z| * 2^(-e)]. *)
Lemma div_100_core (z : Z) :
  0 < Z.abs z < 2 ^ 24 ->
  exists m e,
    div (of_Z z) (of_Z 100) = S754_finite (z <? 0) m e /\
    Z.pos (digits2_pos m) = 24 /\ -149 <= e < 0 /\
    Z.abs (100 * Z.pos m - Z.abs z * 2 ^ (- e)) * 2 <= 100.
Proof.
  intros Hz.
  destruct (of_Z_mantissa z Hz) as (m1 & d & -> & Hd & Hm1 & Hdig).
  rewrite of_Z_100. unfold div, SFdiv.
  rewrite div_core_100 by (assumption || lia).
  pose proof (Z_div_mod (Z.pos m1 * 2 ^ 24) 13107200 eq_refl) as Hdiv.
  destruct (Z.div_eucl (Z.pos m1 * 2 ^ 24) 13107200) as (q, r).
  destruct Hdiv as (HN & Hr).
  assert (Hrange : 2 ^ 23 <= Z.pos m1 < 2 ^ 24).
  { pose proof (digits2_spec m1) as Hs. rewrite Hdig in Hs. exact Hs. }
  change (2 ^ 23) with 8388608 in Hrange. change (2 ^ 24) with 16777216 in Hrange, HN.
  assert (Hq : 8388608 <= q < 33554432) by lia.
  destruct q as [|q|q]; try lia.
  rewrite xorb_false_r.
  set (l := if r =? 0 then loc_Exact else loc_Inexact (2 * r ?= 13107200)).
  assert (Hl : loc_ok l r 13107200).
  { unfold l. destruct (Z.eqb_spec r 0) as [->|Hne]; cbn [loc_ok]; [reflexivity|].
    split; [lia|reflexivity]. }
  destruct (round_aux_nearest (z <? 0) q (d - 24 - 7) r 13107200 l Hl Hr)
    as (m & k & -> & Hdm & Hk & Herr).
  { change (2 ^ 23) with 8388608. change (2 ^ 25) with 33554432. exact Hq. }
  { lia. }
  exists m, (d - 24 - 7 + k).
  split; [reflexivity|]. split; [exact Hdm|]. split; [lia|].
  set (U := 2 ^ (- (d - 24 - 7 + k))).
  set (T := 131072 * 2 ^ k).
  assert (HT : 0 < T) by (unfold T; pose proof (Z.pow_pos_nonneg 2 k); lia).
  assert (HUT : Z.pos m1 * 16777216 = Z.abs z * U * T).
  { rewrite Hm1. unfold U, T.
    change 16777216 with (2 ^ 24). change 131072 with (2 ^ 17).
    rewrite <- !Z.mul_assoc, <- !Z.pow_add_r by lia. do 2 f_equal. lia. }
  assert (Hscaled : Z.pos m * 2 ^ k * 13107200 - (Z.pos q * 13107200 + r)
                    = (100 * Z.pos m - Z.abs z * U) * T).
  { replace (Z.pos q * 13107200 + r) with (Z.pos m1 * 16777216) by lia.
    rewrite HUT. unfold T. ring. }
  rewrite Hscaled, Z.abs_mul, (Z.abs_eq T) in Herr by lia.
  replace (13107200 * 2 ^ k) with (100 * T) in Herr by (unfold T; ring).
  nia.
Qed.

(** Dividing the float32 of an integer of at most 24 bits by 100 gives the
    float32 nearest to the hundredth of the integer. *)
Lemma div_100_nearest (z : Z) :
  0 < Z.abs z < 2 ^ 24 -> nearest (z # 100) (div (of_Z z) (of_Z 100)).
Proof.
  intros Hz. destruct (div_100_core z Hz) as (m & e & -> & Hd & He & Herr).
  assert (Hsign : z = if z <? 0 then - Z.abs z else Z.abs z)
    by (destruct (Z.ltb_spec z 0); lia).
  rewrite Hsign at 1.
  apply nearest_intro; assumption.
Qed.

(** ** Decoded values *)

Lemma scaled_hundredth (w : list byte) :
  1 <= Slice.len w <= 4 -> big_endian w < 2 ^ 24 ->
  hundredth (big_endian w) (div (unpack w) (of_Z 100)).
Proof.
  intros Hl Hb. pose proof (big_endian_nonneg w) as H0.
  assert (Hu : unpack w = of_Z (big_endian w)).
  { unfold unpack. rewrite unpack_bits_big_endian by exact Hl. reflexivity. }
  rewrite Hu. split.
  - intros ->. reflexivity.
  - intros Hne. apply div_100_nearest. rewrite Z.abs_eq by lia. lia.
Qed.

Lemma field_nearest_scaled (get : TracerStatus -> float32) (t : TracerStatus)
    (buffer : list byte) (lo hi : Z) :
  Slice.len buffer = 120 -> 0 <= lo -> 1 <= hi - lo <= 4 -> hi <= 120 ->
  get t = scaled buffer lo hi ->
  field_nearest t buffer (get, (lo, hi)).
Proof.
  intros H Hlo Hw Hhi Hget. unfold field_nearest. cbn [fst snd]. cbn zeta.
  pose proof (window_len buffer lo hi) as Hl.
  pose proof (big_endian_bound (Slice.window buffer lo hi)) as Hb.
  rewrite Hl in Hb by lia.
  split.
  - intros Htwo. rewrite Htwo in Hb. change (2 ^ (8 * 2)) with 65536 in Hb. lia.
  - intros Hsmall. rewrite Hget. apply scaled_hundredth; lia.
Qed.

(** X10: every decoded value whose raw integer is below [2^24] is the
    float32 nearest to the raw value divided by 100, and [+0] for raw 0:
    the conversion and the division round once.  This holds for each of
    the two-byte fields whatever the buffer, for each four-byte energy
    counter below [2^24], and for battery current with its signed value. *)
Theorem decoded_values_nearest (now : Z) (buffer : list byte) :
  Slice.len buffer = 120 ->
  exists t,
    decode now buffer = Some t /\
    Forall (field_nearest t buffer) unsigned_fields /\
    let raw := big_endian (Slice.window buffer 73 75) in
    hundredth (if 32768 <? raw then raw - 65536 else raw) (BatteryCurrent t).
Proof.
  intros H.
  destruct (sign_corrected_exact buffer H) as (_ & Hrange & Hc).
  unfold signed_at_73, raw_at in Hrange, Hc.
  eexists. split; [apply decode_eq; exact H|]. split.
  - unfold unsigned_fields.
    repeat (apply Forall_cons;
            [apply field_nearest_scaled; [exact H|lia|lia|lia|reflexivity]|]).
    apply Forall_nil.
  - cbn zeta. cbn [BatteryCurrent]. rewrite Hc.
    set (v := if 32768 <? big_endian (Slice.window buffer 73 75)
              then big_endian (Slice.window buffer 73 75) - 65536
              else big_endian (Slice.window buffer 73 75)) in *.
    split.
    + intros ->. reflexivity.
    + intros Hne. apply div_100_nearest. change (2 ^ 24) with 16777216. lia.
Qed.

Lemma decoded_values_nearest_witness :
  exists t,
    decode 0 (Slice.store (Slice.make 120) 24 [Byte.x04; Byte.xd2]) = Some t /\
    nearest (1234 # 100) (ArrayVoltage t).
Proof.
  destruct (decoded_values_nearest 0
              (Slice.store (Slice.make 120) 24 [Byte.x04; Byte.xd2]))
    as (t & Hd & Hf & _).
  { vm_compute. reflexivity. }
  exists t. split; [exact Hd|].
  apply Forall_inv in Hf. destruct Hf as (_ & Hf).
  cbn [fst snd] in Hf.
  replace (big_endian
             (Slice.window (Slice.store (Slice.make 120) 24 [Byte.x04; Byte.xd2]) 24 26))
    with 1234 in Hf by (vm_compute; reflexivity).
  destruct Hf as (_ & Hn); [vm_compute; reflexivity|].
  apply Hn. discriminate.
Defined.


(** ** What [String] prints *)

(** Rounding to two decimals undoes the division by 100: the float32 of
    [z/100] has [z] as its nearest integer of hundredths, as long as a unit
    in the last place is below a hundredth. *)
Lemma cents_of_hundredth (m : positive) (e z : Z) :
  Z.pos (digits2_pos m) = 24 -> e < 0 -> 0 < z <= 2 ^ 22 ->
  Z.abs (100 * Z.pos m - z * 2 ^ (- e)) * 2 <= 100 ->
  cents m e = z.
Proof.
  intros Hd He Hz Herr. unfold cents.
  destruct (Z.leb_spec 0 e); [lia|]. cbv zeta.
  pose proof (digits2_spec m) as Hm. rewrite Hd in Hm.
  change (2 ^ (24 - 1)) with 8388608 in Hm. change (2 ^ 22) with 4194304 in Hz.
  set (P := 2 ^ (- e)) in *.
  assert (HP : 100 < P).
  { destruct (Z.ltb_spec 100 P); [assumption|].
    assert (z * P <= 4194304 * 100) by nia. lia. }
  pose proof (Z.div_mod (100 * Z.pos m) P ltac:(lia)) as Hdm.
  pose proof (Z.mod_pos_bound (100 * Z.pos m) P ltac:(lia)) as Hb.
  set (a := (100 * Z.pos m) / P) in *.
  set (b := (100 * Z.pos m) mod P) in *.
  assert (Hcases : (a = z /\ 2 * b < P) \/ (a + 1 = z /\ P < 2 * b)).
  { destruct (Z.lt_trichotomy a z) as [Hlt|[Heq|Hgt]].
    - right. destruct (Z.eq_dec (a + 1) z) as [Hz1|Hz1].
      + split; [exact Hz1|]. subst z.
        rewrite Hdm in Herr.
        replace (P * a + b - (a + 1) * P) with (- (P - b)) in Herr by ring.
        rewrite Z.abs_opp, Z.abs_eq in Herr by lia. lia.
      + exfalso. assert (Hz2 : a + 2 <= z) by lia.
        rewrite Hdm in Herr.
        assert (P * a + b - z * P <= - P) by nia.
        rewrite Z.abs_neq in Herr by lia. lia.
    - left. split; [exact Heq|]. subst z.
      rewrite Hdm in Herr.
      replace (P * a + b - a * P) with b in Herr by ring.
      rewrite Z.abs_eq in Herr by lia. lia.
    - exfalso. rewrite Hdm in Herr.
      assert (P <= P * a + b - z * P) by nia.
      rewrite Z.abs_eq in Herr by lia. lia. }
  destruct Hcases as [(Ha & Hlt)|(Ha & Hgt)].
  - apply Z.compare_lt_iff in Hlt. rewrite Hlt. exact Ha.
  - apply Z.compare_gt_iff in Hgt. rewrite Hgt. exact Ha.
Qed.

Lemma fmt_2f_hundredth (z : Z) :
  Z.abs z <= 2 ^ 22 -> fmt_2f (div (of_Z z) (of_Z 100)) = fixed2 z.
Proof.
  intros Hz. destruct (Z.eq_dec z 0) as [->|Hne]; [reflexivity|].
  destruct (div_100_core z) as (m & e & -> & Hd & He & Herr).
  { change (2 ^ 22) with 4194304 in Hz. change (2 ^ 24) with 16777216. lia. }
  unfold fmt_2f, fixed2. cbv zeta.
  rewrite (cents_of_hundredth m e (Z.abs z)) by (assumption || lia).
  reflexivity.
Qed.

Lemma raw_at_two (buffer : list byte) (lo hi : Z) :
  Slice.len buffer = 120 -> 0 <= lo -> hi - lo = 2 -> hi <= 120 ->
  0 <= raw_at buffer lo hi < 65536.
Proof.
  intros H Hlo Hw Hhi. unfold raw_at.
  pose proof (big_endian_bound (Slice.window buffer lo hi)) as Hb.
  rewrite window_len, Hw in Hb by lia. exact Hb.
Qed.

Lemma fmt_2f_field (buffer : list byte) (lo hi : Z) :
  Slice.len buffer = 120 -> 0 <= lo -> 1 <= hi - lo <= 4 -> hi <= 120 ->
  raw_at buffer lo hi <= 2 ^ 22 ->
  fmt_2f (scaled buffer lo hi) = fixed2 (raw_at buffer lo hi).
Proof.
  intros H Hlo Hw Hhi Hraw. unfold scaled, raw_at in *.
  pose proof (big_endian_nonneg (Slice.window buffer lo hi)) as H0.
  unfold unpack. rewrite unpack_bits_big_endian by (rewrite window_len; lia).
  apply fmt_2f_hundredth. rewrite Z.abs_eq by lia. exact Hraw.
Qed.

Ltac two_byte_field buffer lo hi :=
  rewrite (fmt_2f_field buffer lo hi)
    by (try lia;
        pose proof (raw_at_two buffer lo hi ltac:(assumption) ltac:(lia) ltac:(lia)
                      ltac:(lia));
        change (2 ^ 22) with 4194304; lia).

(** X11: printing a decoded snapshot gives back the numbers of the device.
    For every assembled buffer whose four-byte counters are at most
    [2^22], [String] prints each value as its raw integer of hundredths
    written with two decimals, battery current with its sign, the state of
    charge as the byte it is and the load flag as [true] or [false]: the
    passage through float32 changes no digit. *)
Theorem String_shows_the_raw_numbers (now : Z) (buffer : list byte) :
  Slice.len buffer = 120 ->
  Forall (fun r => raw_at buffer (fst r) (snd r) <= 2 ^ 22) counters ->
  exists t, decode now buffer = Some t /\ TracerStatus_String t = report buffer.
Proof.
  intros H Hc. eexists. split; [apply decode_eq; exact H|].
  unfold counters in Hc.
  repeat match goal with
         | Hf : Forall _ (_ :: _) |- _ =>
             let Hh := fresh "Hh" in
             pose proof (Forall_inv Hf) as Hh; cbn [fst snd] in Hh;
             apply Forall_inv_tail in Hf
         end.
  unfold TracerStatus_String, report.
  cbn [ArrayVoltage ArrayCurrent ArrayPower BatteryVoltage BatteryCurrent BatterySOC
       BatteryTemp BatteryMaxVoltage BatteryMinVoltage DeviceTemp LoadVoltage
       LoadCurrent LoadPower Load EnergyConsumedDaily EnergyConsumedMonthly
       EnergyConsumedAnnual EnergyConsumedTotal EnergyGeneratedDaily
       EnergyGeneratedMonthly EnergyGeneratedAnnual EnergyGeneratedTotal].
  two_byte_field buffer 24 26. two_byte_field buffer 26 28.
  two_byte_field buffer 28 30. two_byte_field buffer 32 34.
  two_byte_field buffer 56 58. two_byte_field buffer 82 84.
  two_byte_field buffer 84 86. two_byte_field buffer 58 60.
  two_byte_field buffer 40 42. two_byte_field buffer 42 44.
  two_byte_field buffer 44 46. two_byte_field buffer 86 88.
  rewrite (fmt_2f_field buffer 88 92), (fmt_2f_field buffer 92 96),
    (fmt_2f_field buffer 96 100), (fmt_2f_field buffer 100 104),
    (fmt_2f_field buffer 104 108), (fmt_2f_field buffer 108 112),
    (fmt_2f_field buffer 112 116) by (assumption || lia).
  destruct (sign_corrected_exact buffer H) as (_ & Hrange & Hsc).
  rewrite Hsc.
  rewrite fmt_2f_hundredth by (change (2 ^ 22) with 4194304; lia).
  assert (Hv : fmt_v (byte_val (nth 65 buffer Byte.x00))
               = decimal (byte_val (nth 65 buffer Byte.x00))).
  { unfold fmt_v. pose proof (byte_val_range (nth 65 buffer Byte.x00)).
    destruct (Z.ltb_spec (byte_val (nth 65 buffer Byte.x00)) 0); [lia|reflexivity]. }
  rewrite Hv. reflexivity.
Qed.

Lemma String_shows_the_raw_numbers_witness :
  exists t,
    decode 0 (Slice.store (Slice.make 120) 73 [Byte.xff; Byte.x9c]) = Some t /\
    TracerStatus_String t
    = report (Slice.store (Slice.make 120) 73 [Byte.xff; Byte.x9c]) /\
    fixed2 (signed_at_73 (Slice.store (Slice.make 120) 73 [Byte.xff; Byte.x9c]))
    = "-1.00"%string.
Proof.
  destruct (String_shows_the_raw_numbers 0
              (Slice.store (Slice.make 120) 73 [Byte.xff; Byte.x9c]))
    as (t & Hd & Hs).
  - vm_compute. reflexivity.
  - unfold counters. repeat (apply Forall_cons; [vm_compute; discriminate|]).
    apply Forall_nil.
  - exists t. split; [exact Hd|]. split; [exact Hs|]. vm_compute. reflexivity.
Defined.

(** ** The bytes that are never read *)

Lemma decoded_position_spec (j : Z) :
  decoded_position j = true <->
  j = 8 \/ 24 <= j < 30 \/ 32 <= j < 34 \/ 40 <= j < 46 \/ 56 <= j < 60 \/
  j = 65 \/ 73 <= j < 75 \/ 82 <= j < 116.
Proof.
  unfold decoded_position.
  rewrite !orb_true_iff, !andb_true_iff, !Z.eqb_eq, !Z.leb_le, !Z.ltb_lt. tauto.
Qed.

Lemma window_ext (b1 b2 : list byte) (lo hi : Z) :
  Slice.len b1 = Slice.len b2 -> 0 <= lo <= hi -> hi <= Slice.len b1 ->
  (forall j, lo <= j < hi -> nth (Z.to_nat j) b1 Byte.x00 = nth (Z.to_nat j) b2 Byte.x00) ->
  Slice.window b1 lo hi = Slice.window b2 lo hi.
Proof.
  intros Hl Hlo Hhi Hsame. unfold Slice.window, Slice.len in *.
  apply nth_ext with (d := Byte.x00) (d' := Byte.x00).
  - rewrite !length_firstn, !length_skipn. lia.
  - intros k Hk. rewrite length_firstn, length_skipn in Hk.
    rewrite !nth_firstn.
    destruct (Nat.ltb_spec k (Z.to_nat (hi - lo))); [|reflexivity].
    rewrite !nth_skipn.
    specialize (Hsame (lo + Z.of_nat k)).
    replace (Z.to_nat (lo + Z.of_nat k)) with (Z.to_nat lo + k)%nat in Hsame by lia.
    apply Hsame. lia.
Qed.

(** X12: the decoding reads 56 of the 120 bytes of the buffer and nothing
    else: two buffers that agree on those positions give the same
    snapshot.  The address, function and length bytes of the replies and
    their checksums are among the 64 bytes that are never looked at. *)
Theorem decode_reads_only_its_fields (now : Z) (b1 b2 : list byte) :
  Slice.len b1 = 120 -> Slice.len b2 = 120 ->
  (forall j, decoded_position j = true ->
             nth (Z.to_nat j) b1 Byte.x00 = nth (Z.to_nat j) b2 Byte.x00) ->
  decode now b1 = decode now b2 /\
  length (filter decoded_position (map Z.of_nat (seq 0 120))) = 56%nat.
Proof.
  intros H1 H2 Hsame. split; [|reflexivity].
  assert (Hwin : forall lo hi,
             0 <= lo <= hi -> hi <= 120 ->
             (forall j, lo <= j < hi -> decoded_position j = true) ->
             Slice.window b1 lo hi = Slice.window b2 lo hi).
  { intros lo hi Hlo Hhi Hpos. apply window_ext; try lia.
    intros j Hj. apply Hsame, Hpos, Hj. }
  assert (H8 : nth 8 b1 Byte.x00 = nth 8 b2 Byte.x00)
    by (apply (Hsame 8); reflexivity).
  assert (H65 : nth 65 b1 Byte.x00 = nth 65 b2 Byte.x00)
    by (apply (Hsame 65); reflexivity).
  rewrite (decode_eq now b1 H1), (decode_eq now b2 H2). unfold scaled.
  rewrite H8, H65.
  rewrite (Hwin 24 26), (Hwin 26 28), (Hwin 28 30), (Hwin 32 34), (Hwin 73 75),
    (Hwin 56 58), (Hwin 82 84), (Hwin 84 86), (Hwin 58 60), (Hwin 40 42),
    (Hwin 42 44), (Hwin 44 46), (Hwin 86 88), (Hwin 88 92), (Hwin 92 96),
    (Hwin 96 100), (Hwin 100 104), (Hwin 104 108), (Hwin 108 112), (Hwin 112 116)
    by (try lia; intros j Hj; apply decoded_position_spec; lia).
  reflexivity.
Qed.

Lemma decode_reads_only_its_fields_witness :
  decode 0 (Slice.store (Slice.make 120) 0 [Byte.x01; Byte.x04; Byte.x06])
  = decode 0 (Slice.make 120).
Proof.
  destruct (decode_reads_only_its_fields 0
              (Slice.store (Slice.make 120) 0 [Byte.x01; Byte.x04; Byte.x06])
              (Slice.make 120)) as (H & _).
  - vm_compute. reflexivity.
  - vm_compute. reflexivity.
  - intros j Hj. apply decoded_position_spec in Hj.
    assert (Hj3 : (3 <= Z.to_nat j)%nat) by lia.
    unfold Slice.store, Slice.make.
    change (Z.to_nat 0) with 0%nat. cbn [firstn app].
    remember (Z.to_nat j) as k eqn:Hk.
    destruct k as [|[|[|k]]]; try lia. cbn [nth].
    change (Slice.len [Byte.x01; Byte.x04; Byte.x06]) with 3.
    change (Z.to_nat (0 + 3)) with 3%nat. change (Z.to_nat 120) with 120%nat.
    rewrite skipn_repeat_zero, !nth_repeat. reflexivity.
  - exact H.
Defined.
